(** * Fuzzy matching of legal parties: a verification development

    Shallow embedding of [court_party_fuzzy_matching/FuzzyMatching.ipynb]
    (class [RemoveRepetitiveNames]) and the properties of its
    normalizer, exact-merge pass, blocking key, similarity dispatch and
    cluster-builder loop.

    Python [str] values are modelled as [string]; a character is a code
    point below 256 (Latin-1), which is where [str.lower] and the regular
    expression class [\s] are given here.  Python [int] is [Z]; the
    [party_count] column is an [int64] column, whose cells are kept in
    [Z] and whose sums wrap around.  A pandas column is a list, a data
    frame a list of rows that carry their index label.  The tables are
    those in which no cell is missing: every name is a [str], every
    attribute is present.  Similarity scores are floats in the source
    and rationals here. *)

From Stdlib Require Import ZArith QArith Ascii String List Bool Lia.
From stdpp Require Import base list gmap strings.

Local Open Scope Z_scope.
#[local] Set Warnings "-abstract-large-number".

(** ** Python string primitives *)

Module Str.

(** [c in s] for a one-character [c]. *)
Fixpoint contains (c : ascii) (s : string) : bool :=
  match s with
  | EmptyString => false
  | String d r => if Ascii.eqb c d then true else contains c r
  end.

(** [s.translate(str.maketrans(dict.fromkeys(punct, '')))]: every
    character of [punct] is deleted from [s]. *)
Fixpoint translate (punct : string) (s : string) : string :=
  match s with
  | EmptyString => EmptyString
  | String c r =>
      if contains c punct then translate punct r
      else String c (translate punct r)
  end.

(** [sep.join(l)]. *)
Fixpoint join (sep : string) (l : list string) : string :=
  match l with
  | [] => EmptyString
  | x :: r =>
      match r with
      | [] => x
      | _ :: _ => x +:+ sep +:+ join sep r
      end
  end.

(** [s.split(sep)] for a one-character separator: never an empty
    list, [''.split(sep) == ['']]. *)
Fixpoint split (sep : ascii) (s : string) : list string :=
  match s with
  | EmptyString => [EmptyString]
  | String c r =>
      if Ascii.eqb c sep then EmptyString :: split sep r
      else match split sep r with
           | t :: ts => String c t :: ts
           | [] => [String c EmptyString]
           end
  end.

(** The class [\s] of [re] on [str] patterns, on code points below
    256: TAB, LF, VT, FF, CR, the separators 0x1c..0x1f, SPACE, NEL
    (0x85) and NBSP (0xa0). *)
Definition is_space (c : ascii) : bool :=
  let n := nat_of_ascii c in
  ((9 <=? n) && (n <=? 13) || (28 <=? n) && (n <=? 32)
   || (n =? 133) || (n =? 160))%nat.

(** [re.sub('\s+', ' ', s)]: [in_run] tells that the previous
    character belonged to the whitespace run being replaced. *)
Fixpoint sub_ws (in_run : bool) (s : string) : string :=
  match s with
  | EmptyString => EmptyString
  | String c r =>
      if is_space c then
        if in_run then sub_ws true r else String " "%char (sub_ws true r)
      else String c (sub_ws false r)
  end.

(** [c.lower()] on code points below 256: A..Z and the Latin-1
    capitals 0xc0..0xde (0xd7, the multiplication sign, apart). *)
Definition lower_char (c : ascii) : ascii :=
  let n := nat_of_ascii c in
  if ((65 <=? n) && (n <=? 90)
      || (192 <=? n) && (n <=? 222) && negb (n =? 215))%nat
  then ascii_of_nat (n + 32) else c.

Fixpoint lower (s : string) : string :=
  match s with
  | EmptyString => EmptyString
  | String c r => String (lower_char c) (lower r)
  end.

(** [ord(c)]. *)
Definition ord (c : ascii) : Z := Z.of_nat (nat_of_ascii c).

(** [len(s)]. *)
Definition len (s : string) : Z := Z.of_nat (String.length s).

End Str.

(** ** Module-level constants of the notebook *)

(** [stopwords = ['llc', 'inc', 'pllc']], the global list of cell 2. *)
Definition stopwords : list string := ["llc"; "inc"; "pllc"].

(** ** Data model *)

(** One row of the party-count table, every cell present. *)
Record Row := mkRow {
  party_name : string;
  party_type : string;
  party_address : string;
  case_type : string;
  year : Z;
  party_count : Z
}.

Definition set_party_name (r : Row) (n : string) : Row :=
  mkRow n (party_type r) (party_address r) (case_type r) (year r) (party_count r).

Definition set_party_count (r : Row) (c : Z) : Row :=
  mkRow (party_name r) (party_type r) (party_address r) (case_type r) (year r) c.

(** A frame: rows with their index label, in row order. *)
Definition Frame := list (nat * Row).

(** The constructor's parameters ([filename] is the already loaded
    table). [None] is Python's [None]. *)
Record Config := mkConfig {
  abbreviations : option (gmap string string);
  cfg_stopwords : option (list string);
  size : nat;
  algorithm : string;
  remove_numbers : bool
}.

(** Truth value of an optional list or dict in an [if]. *)
Definition truthy_list {A} (o : option (list A)) : bool :=
  match o with Some (_ :: _) => true | _ => false end.

Definition truthy_dict (o : option (gmap string string)) : bool :=
  match o with Some m => negb (bool_decide (m = ∅)) | None => false end.

(** ** Normalizer *)

(** The two deletion tables of [remove_punc_num]. *)
Definition punct_only : string :=
  String "!"%char (String "034"%char "#$%&'()*+,-./:;<=>?@[\]^_`{}~").

Definition punct_digits : string := "1234567890" +:+ punct_only.

Definition punct_of (remove_numbers : bool) : string :=
  if remove_numbers then punct_digits else punct_only.

(** [remove_punc_num] on the name column: the names are joined with
    ['|'], translated in one go and split again.  Assigning the pieces
    to a frame of another length raises ([None]); a frame without rows
    takes the length of the column assigned to it, here the one piece
    [''] of the empty join. *)
Definition remove_punc_num (remove_numbers : bool) (names : list string)
  : option (list string) :=
  let pieces :=
    Str.split "|"%char (Str.translate (punct_of remove_numbers) (Str.join "|" names)) in
  match names with
  | [] => Some pieces
  | _ :: _ => if (length pieces =? length names)%nat then Some pieces else None
  end.

(** [remove_stopwords]: the membership test is against the global
    [stopwords], as in the source. *)
Definition remove_stopwords (party_name : string) : string :=
  Str.join " "
    (filter (fun item => item ∉ stopwords) (Str.split " "%char party_name)).

(** [abbreviate], against [self.abbreviations]. *)
Definition abbreviate (abbr : gmap string string) (party_name : string) : string :=
  Str.join " "
    (map (fun item => match abbr !! item with Some a => a | None => item end)
         (Str.split " "%char party_name)).

(** The two optional steps on one name: [if self.stopwords:] and
      [if self.abbreviations:] guard them. *)
Definition stop_step (cfg : Config) (name : string) : string :=
    if truthy_list (cfg_stopwords cfg) then remove_stopwords name else name.

Definition abbr_step (cfg : Config) (name : string) : string :=
    match abbreviations cfg with
    | Some abbr => if truthy_dict (Some abbr) then abbreviate abbr name else name
    | None => name
    end.

(** The name column after the five steps of [__init__], in source
      order. *)
Definition normalize_column (cfg : Config) (names : list string)
    : option (list string) :=
    match remove_punc_num (remove_numbers cfg) names with
    | None => None
    | Some names0 =>
        let names1 := map (Str.sub_ws false) names0 in
        let names2 := map Str.lower names1 in
        let names3 :=
          if truthy_list (cfg_stopwords cfg) then map remove_stopwords names2
          else names2 in
        let names4 :=
          match abbreviations cfg with
          | Some abbr =>
              if truthy_dict (Some abbr) then map (abbreviate abbr) names3
              else names3
          | None => names3
          end in
        Some names4
    end.

(** The same five steps on one name. *)
Definition normalize_name (cfg : Config) (name : string) : string :=
    abbr_step cfg
      (stop_step cfg
         (Str.lower
            (Str.sub_ws false
               (Str.translate (punct_of (remove_numbers cfg)) name)))).

(** ** Exact-merge pass *)

(** [loaded_data[:size]] with the default [RangeIndex] of [read_csv]. *)
Definition load (size : nat) (loaded_data : list Row) : Frame :=
  let d := take size loaded_data in zip (seq 0 (length d)) d.

Definition names_of (data : Frame) : list string := map (fun ir => party_name ir.2) data.

Definition set_names (data : Frame) (names : list string) : Frame :=
  zip_with (fun ir n => (ir.1, set_party_name ir.2 n)) data names.

(** The range of an [int64] cell, and the value an [int64] addition
    leaves when the sum of its operands is [z]. *)
Definition int64_min : Z := -9223372036854775808.
Definition int64_max : Z := 9223372036854775807.
Definition int64_modulus : Z := 18446744073709551616.

Definition in_int64 (z : Z) : Prop := int64_min <= z <= int64_max.

Definition wrap64 (z : Z) : Z := (z - int64_min) mod int64_modulus + int64_min.

(** The [party_count] cells of one [party_name] group, in row order. *)
Definition group_counts (data : list (nat * Row)) (name : string) : list Z :=
  map (fun ir => party_count ir.2) (filter (fun ir => party_name ir.2 = name) data).

(** The sum of the cells of a group: every addition of two cells is
    an [int64] addition. *)
Fixpoint sum64 (cells : list Z) : Z :=
  match cells with
  | [] => 0
  | c :: rest =>
      match rest with
      | [] => c
      | _ :: _ => wrap64 (c + sum64 rest)
      end
  end.

(** Sum of [party_count] over the rows of one [party_name] group. *)
Definition group_sum (data : Frame) (name : string) : Z :=
  sum64 (group_counts data name).

(** [groupby(['party_name'])['party_count'].transform('sum')]. *)
Definition transform_sum (data : Frame) : Frame :=
  map (fun ir => (ir.1, set_party_count ir.2 (group_sum data (party_name ir.2)))) data.

(** [drop_duplicates(subset=['party_name'])]: the first row of every
    name stays, with its index label. *)
Fixpoint drop_duplicates (seen : list string) (data : Frame) : Frame :=
  match data with
  | [] => []
  | ir :: rest =>
      if decide (party_name ir.2 ∈ seen) then drop_duplicates seen rest
      else ir :: drop_duplicates (party_name ir.2 :: seen) rest
  end.

Definition exact_merge (data : Frame) : Frame :=
  drop_duplicates [] (transform_sum data).

(** ** Blocking key *)

(** [sum_string]: [sum(ord(c) - 64 for c in string)]. *)
Fixpoint sum_string (s : string) : Z :=
  match s with
  | EmptyString => 0
  | String c r => (Str.ord c - 64) + sum_string r
  end.

(** [word_sum + word_length*33]. *)
Definition word_position (name : string) : Z :=
  sum_string name + Str.len name * 33.

(** A row of [self.data] once the [position] column is there. *)
Record PRow := mkPRow {
  index : nat;
  row : Row;
  position : Z
}.

Definition add_position (data : Frame) : list PRow :=
  map (fun ir => mkPRow ir.1 ir.2 (word_position (party_name ir.2))) data.

(** Membership of a position in the window of an anchor:
    [position <= anchor * 1.2] and [position >= anchor * .8].  For
    integer positions below 2^52 in absolute value the two float
    products compare with an integer exactly as the rationals do. *)
Definition in_window (anchor p : Z) : bool :=
  (10 * p <=? 12 * anchor) && (10 * p >=? 8 * anchor).

(** ** Output *)

Record Cluster := mkCluster {
  c_party_name : string;
  aliases : list string;
  party_types : list string;
  addresses : list string;
  case_types : list string;
  years : list Z;
  c_party_count : Z
}.

(** [if x not in l: l.append(x)]. *)
Definition append_new `{EqDecision A} (x : A) (l : list A) : list A :=
  if decide (x ∈ l) then l else l ++ [x].

Section Engine.

(** The two library calls behind [seq] and [levenshtein]:
    [difflib.SequenceMatcher(None, a, b).ratio()], a float, and
    [fuzzywuzzy.fuzz.ratio(a, b)], an integer percentage. *)
Variable SequenceMatcher_ratio : string -> string -> Q.
Variable fuzz_ratio : string -> string -> Z.

(** The method [seq]. *)
Definition seq_score (a b : string) : Q := SequenceMatcher_ratio a b.

(** The method [levenshtein]. *)
Definition levenshtein (a b : string) : Z := fuzz_ratio a b.

(** The dispatch on [self.algorithm] in the inner loop. *)
Definition score (algorithm a b : string) : Q :=
  if decide (algorithm = "seq") then seq_score a b
  else if decide (algorithm = "levenshtein") then inject_Z (levenshtein a b) / 100
  else seq_score a b.

(** State of the inner loop: the shared [removed] list and match
    counter, and the lists of the cluster being filled. *)
Record Acc := mkAcc {
  a_removed : list nat;
  a_matches : Z;
  a_aliases : list string;
  a_party_types : list string;
  a_addresses : list string;
  a_case_types : list string;
  a_years : list Z;
  a_counts : Z
}.

(** Body of [for index_2, row_2 in test_set.iterrows()]. *)
Definition merge_step (algorithm : string) (anchor : PRow) (acc : Acc) (row_2 : PRow) : Acc :=
  if decide (index row_2 ∈ a_removed acc) then acc
  else if Qle_bool (8 # 10)
            (score algorithm (party_name (row anchor)) (party_name (row row_2)))
  then mkAcc (a_removed acc ++ [index row_2])
             (a_matches acc + 1)
             (append_new (party_name (row row_2)) (a_aliases acc))
             (append_new (party_type (row row_2)) (a_party_types acc))
             (append_new (party_address (row row_2)) (a_addresses acc))
             (append_new (case_type (row row_2)) (a_case_types acc))
             (append_new (year (row row_2)) (a_years acc))
             (a_counts acc + party_count (row row_2))
  else acc.

(** State of the outer loop. *)
Record Builder := mkBuilder {
  clusters : list Cluster;
  removed : list nat;
  matches : Z
}.

Definition test_set (data : list PRow) (anchor : PRow) : list PRow :=
  filter (fun r => in_window (position anchor) (position r) = true) data.

(** Body of the outer [for index, row in self.data.iterrows()]. *)
Definition cluster_step (algorithm : string) (data : list PRow)
    (st : Builder) (anchor : PRow) : Builder :=
  if decide (index anchor ∈ removed st) then st
  else
    let acc0 :=
      mkAcc (removed st ++ [index anchor]) (matches st) []
            [party_type (row anchor)] [party_address (row anchor)]
            [case_type (row anchor)] [year (row anchor)]
            (party_count (row anchor)) in
    let acc := foldl (merge_step algorithm anchor) acc0 (test_set data anchor) in
    mkBuilder
      (clusters st ++
         [mkCluster (party_name (row anchor)) (a_aliases acc) (a_party_types acc)
                    (a_addresses acc) (a_case_types acc) (a_years acc) (a_counts acc)])
      (a_removed acc) (a_matches acc).

Definition build (algorithm : string) (data : list PRow) : Builder :=
  foldl (cluster_step algorithm data) (mkBuilder [] [] 0) data.

(** What the constructor leaves on the object. *)
Record Result := mkResult {
  data : list PRow;
  dropped_duplicates_count : Z;
  fuzzy_match_count : Z;
  output_df : list Cluster
}.

(** How the constructor ends.  [Raises]: the assignment in
    [remove_punc_num] raises.  [MissingRows names]: the slice
    [loaded_data[:size]] has no row, the assignment gives the frame the
    rows of the name column [names], every other cell of which is
    missing, and the constructor goes on over these rows; rows with
    missing cells are not described here, so this run is followed no
    further than its name column.  [Returns res]: the slice has rows,
    the constructor returns and leaves [res] on the object. *)
Inductive Outcome :=
| Raises
| MissingRows (names : list string)
| Returns (res : Result).

(** [RemoveRepetitiveNames.__init__] on an already loaded table. *)
Definition run (cfg : Config) (loaded_data : list Row) : Outcome :=
  let data0 := load (size cfg) loaded_data in
  match normalize_column cfg (names_of data0) with
  | None => Raises
  | Some names =>
      match data0 with
      | [] => MissingRows names
      | _ :: _ =>
          let data1 := exact_merge (set_names data0 names) in
          let new_size := Z.of_nat (length data1) in
          let data2 := add_position data1 in
          let st := build (algorithm cfg) data2 in
          Returns (mkResult data2 (Z.of_nat (size cfg) - new_size) (matches st) (clusters st))
      end
  end.

(** The object a run leaves, if it leaves one. *)
Definition returned (o : Outcome) : option Result :=
  match o with Returns res => Some res | _ => None end.

End Engine.

(** ** A model of [fuzz.ratio] with the Levenshtein back end

    [fuzzywuzzy.fuzz.ratio] is a parameter of the engine above.  What
    follows is the ratio of its [python-Levenshtein] back end, in exact
    arithmetic: equal strings score 100, an empty string scores 0, and
    otherwise the score is [100 * (la + lb - d) / (la + lb)] rounded to
    an integer, with [d] the edit distance in which a substitution costs
    2, that is [la + lb - 2 * lcs]; at an exact tie it rounds to the even
    neighbour.  With the [difflib] back end [fuzz.ratio] matches blocks
    as Ratcliff and Obershelp do and rounds a float, and may score
    another value; on the pair of Scenario A, the only pair this
    development scores with it, both back ends give 93. *)

Fixpoint lcs (a b : string) : nat :=
  match a with
  | EmptyString => O
  | String c a' =>
      (fix scan (b : string) : nat :=
         match b with
         | EmptyString => O
         | String d b' =>
             if Ascii.eqb c d then S (lcs a' b')
             else Nat.max (lcs a' b) (scan b')
         end) b
  end.

Definition round_half_even (n d : Z) : Z :=
  let q := n / d in
  let r := n mod d in
  if 2 * r <? d then q
  else if d <? 2 * r then q + 1
  else if Z.even q then q else q + 1.

Definition fuzz_ratio_indel (a b : string) : Z :=
  if decide (a = b) then 100
  else if decide (a = EmptyString \/ b = EmptyString) then 0
  else round_half_even (200 * Z.of_nat (lcs a b)) (Str.len a + Str.len b).

(** ** The specification's wording, for comparison *)

(** Section 4.3: the alphabetic ordinal value of a character, A=1 to
    Z=26 in either case, 0 for every other character. *)
Definition alpha_ordinal (c : ascii) : Z :=
  let n := nat_of_ascii c in
  if ((65 <=? n) && (n <=? 90))%nat then Z.of_nat n - 64
  else if ((97 <=? n) && (n <=? 122))%nat then Z.of_nat n - 96
  else 0.

Fixpoint spec_letter_sum (s : string) : Z :=
  match s with
  | EmptyString => 0
  | String c r => alpha_ordinal c + spec_letter_sum r
  end.

Definition spec_block_key (name : string) : Z :=
  spec_letter_sum name + Str.len name * 33.

(** Section 4.1, step 4: drop the tokens that are in the configured
    stopword set. *)
Definition spec_remove_stopwords (S : list string) (name : string) : string :=
  Str.join " " (filter (fun item => item ∉ S) (Str.split " "%char name)).

(** ** Bookkeeping notions *)

Definition total {A} (f : A -> Z) (l : list A) : Z :=
  foldr (fun x acc => f x + acc) 0 l.

(** The sum of the cells of a group as integers, without wrap-around. *)
Definition group_total (data : Frame) (name : string) : Z :=
  total (fun c => c) (group_counts data name).

(** Every [party_count] cell of the rows is an [int64]. *)
Definition int64_cells (rows : list Row) : Prop :=
  Forall (fun r => in_int64 (party_count r)) rows.

(** No group of rows whose names normalize to the same text has counts
    that add up to a value outside the [int64] range. *)
Definition no_overflow (cfg : Config) (rows : list Row) : Prop :=
  forall n,
    in_int64 (total party_count
                (filter (fun r => normalize_name cfg (party_name r) = n) rows)).

(** The names a cluster stands for: its anchor, then its aliases. *)
Definition members (c : Cluster) : list string := c_party_name c :: aliases c.

Definition pname (r : PRow) : string := party_name (row r).
Definition pcount (r : PRow) : Z := party_count (row r).
Definition rname (ir : nat * Row) : string := party_name ir.2.
Definition rcount (ir : nat * Row) : Z := party_count ir.2.

(** Inner loop: [ms] lists the rows merged into the anchor's cluster so
    far, [used] the rows consumed before the inner loop began (the
    anchor last), [m0] the match counter at that point. *)
Definition acc_inv (frame : list PRow) (anchor : PRow) (used : list PRow) (m0 : Z)
    (acc : Acc) (ms : list PRow) : Prop :=
  a_removed acc = map index (used ++ ms)
  /\ Forall (fun r => r ∈ frame) ms
  /\ NoDup (map index (used ++ ms))
  /\ a_aliases acc = map pname ms
  /\ a_counts acc = pcount anchor + total pcount ms
  /\ a_matches acc = m0 + Z.of_nat (length ms).

(** Outer loop: [used] lists the consumed rows in the order of
    [removed]. *)
Definition builder_inv (frame : list PRow) (st : Builder) (used : list PRow) : Prop :=
  removed st = map index used
  /\ Forall (fun r => r ∈ frame) used
  /\ NoDup (map index used)
  /\ flat_map members (clusters st) = map pname used
  /\ total c_party_count (clusters st) = total pcount used
  /\ matches st + Z.of_nat (length (clusters st)) = Z.of_nat (length used).

(** ** Sample tables *)

Definition sample_config : Config :=
  mkConfig (Some {[ "apartments" := "apt" ]}) (Some ["llc"]) 10000 "levenshtein" true.

Definition sample_table : list Row :=
  [ mkRow "ABC Apartments LLC" "plaintiff" "1 Main St" "eviction" 2020 3;
    mkRow "ABC Apts LLC" "defendant" "1 Main St" "eviction" 2019 4;
    mkRow "abc  apartments, llc" "defendant" "2 Main St" "debt" 2018 5;
    mkRow "Smith John" "defendant" "3 Oak Ave" "eviction" 2018 1 ].

(** A stand-in for the [difflib] ratio where a run needs one. *)
Definition sample_ratio (a b : string) : Q :=
  inject_Z (fuzz_ratio_indel a b) / 100.

(** The configuration of Scenario A, for any [size] of at least two
    rows and either [remove_numbers] flag. *)
Definition scenario_a_config (n : nat) (rn : bool) : Config :=
  mkConfig (Some {[ "apartments" := "apt" ]}) (Some ["llc"]) (S (S n)) "levenshtein" rn.

(** An abbreviation table one of whose values is a key again. *)
Definition chained_config : Config :=
  mkConfig (Some {[ "apartments" := "apt"; "apt" := "ap" ]}) None 10000 "seq" true.

(** ** Shapes of names *)

(** Number of occurrences of [c] in [s]. *)
Fixpoint count_char (c : ascii) (s : string) : nat :=
  match s with
  | EmptyString => O
  | String d r => if Ascii.eqb c d then S (count_char c r) else count_char c r
  end.

(** A name column [remove_punc_num] accepts: no name holds the ['|']
    the names are joined with. *)
Definition column_ok (names : list string) : bool :=
  forallb (fun n => negb (Str.contains "|" n)) names.

(** The names a frame has after the assignment in [remove_punc_num]: a
    frame without rows has grown to the one name ['']. *)
Definition grown (names : list string) : list string :=
  match names with
  | [] => [EmptyString]
  | _ :: _ => names
  end.

Fixpoint all_chars (f : ascii -> bool) (s : string) : bool :=
  match s with
  | EmptyString => true
  | String c r => f c && all_chars f r
  end.

(** Every whitespace character of [s] is a space and no two spaces are
    adjacent; [prev] tells that the character before [s] was a space. *)
Fixpoint ws_collapsed (prev : bool) (s : string) : bool :=
  match s with
  | EmptyString => true
  | String c r =>
      if Str.is_space c then Ascii.eqb c " " && negb prev && ws_collapsed true r
      else ws_collapsed false r
  end.

Definition leading_ws (s : string) : bool :=
  match s with
  | EmptyString => false
  | String c _ => Str.is_space c
  end.

Fixpoint trailing_ws (s : string) : bool :=
  match s with
  | EmptyString => false
  | String c r =>
      match r with
      | EmptyString => Str.is_space c
      | String _ _ => trailing_ws r
      end
  end.

(** [s == s.strip()]. *)
Definition trimmed (s : string) : bool := negb (leading_ws s) && negb (trailing_ws s).

(** A character the first three steps leave alone: not deleted, not
    whitespace, not a capital. *)
Definition char_ok (punct : string) (c : ascii) : bool :=
  negb (Str.contains c punct) && negb (Str.is_space c)
  && Ascii.eqb (Str.lower_char c) c.

Definition tok_ok (punct : string) (t : string) : bool := all_chars (char_ok punct) t.

(** A name in the form the first three steps produce: its tokens are
    made of [char_ok] characters and single spaces separate them. *)
Definition normal_form (punct : string) (s : string) : bool :=
  all_chars (fun c => Ascii.eqb c " " || char_ok punct c) s && ws_collapsed false s.

(** All tokens but the last are non-empty. *)
Fixpoint tail_ok (l : list string) : Prop :=
  match l with
  | [] => True
  | x :: r =>
      match r with
      | [] => True
      | _ :: _ => x <> EmptyString /\ tail_ok r
      end
  end.

(** All tokens but the first and the last are non-empty. *)
Definition inner_nonempty (l : list string) : Prop :=
  match l with
  | [] => True
  | _ :: r => tail_ok r
  end.

Definition nostop (s : string) : Prop :=
  Forall (fun t => t ∉ stopwords) (Str.split " " s).

Definition nokey (abbr : gmap string string) (s : string) : Prop :=
  Forall (fun t => abbr !! t = None) (Str.split " " s).

(** An abbreviation the pipeline would not touch again: a non-empty
    token of [char_ok] characters, free of ['|'], that is no key of the
    table and, when stopwords are removed, no stopword. *)
Definition value_ok (punct : string) (stop : bool) (abbr : gmap string string)
    (v : string) : bool :=
  negb (String.eqb v EmptyString) && tok_ok punct v
  && negb (Str.contains "|" v)
  && bool_decide (abbr !! v = None)
  && (negb stop || bool_decide (v ∉ stopwords)).

(** Every value of the table is such an abbreviation. *)
Definition vals_ok (p : string) (stop : bool) (abbr : gmap string string) : Prop :=
  forall k v, abbr !! k = Some v -> value_ok p stop abbr v = true.

Definition abbr_ok (cfg : Config) : bool :=
  match abbreviations cfg with
  | None => true
  | Some abbr =>
      forallb
        (fun kv => value_ok (punct_of (remove_numbers cfg))
                     (truthy_list (cfg_stopwords cfg)) abbr kv.2)
        (map_to_list abbr)
  end.

(** The abbreviation table of the notebook (cell 2). *)
Definition notebook_abbreviations : gmap string string :=
  list_to_map
    [ ("apartment", "apt"); ("apartments", "apt"); ("company", "co");
      ("furniture", "fur"); ("credit", "cr"); ("management", "mgt");
      ("financial", "fin"); ("services", "svc"); ("acceptance", "acc");
      ("corporation", "corp"); ("property", "prop"); ("recovery", "rec");
      ("holdings", "hld"); ("bonding", "bnd"); ("collection", "col");
      ("rental", "rtl"); ("rentals", "rtl"); ("homes", "hms"); ("group", "grp");
      ("service", "svc"); ("realty", "rlt"); ("bank", "bk");
      ("properties", "prop"); ("capital", "cap"); ("place", "pl");
      ("manor", "mn"); ("insurance", "ins"); ("acquisitions", "acq");
      ("union", "un") ].

(** Test A of the notebook. *)
Definition test_a_config : Config :=
  mkConfig (Some notebook_abbreviations) (Some stopwords) 10000 "levenshtein" true.

(** ** Notions for the properties of the output *)

(** The configuration with another [algorithm]. *)
Definition with_algorithm (cfg : Config) (alg : string) : Config :=
  mkConfig (abbreviations cfg) (cfg_stopwords cfg) (size cfg) alg (remove_numbers cfg).

(** Every row carries the position of its own name, as after
    [add_position]. *)
Definition well_positioned (frame : list PRow) : Prop :=
  Forall (fun r => position r = word_position (pname r)) frame.

(** The aliases of a cluster scored at least 0.8 against its anchor
    and had their position in the anchor's window. *)
Definition aliases_sound (smr : string -> string -> Q) (fr : string -> string -> Z)
    (alg : string) (anchor_name : string) (als : list string) : Prop :=
  Forall (fun a =>
            Qle_bool (8 # 10) (score smr fr alg anchor_name a) = true
            /\ in_window (word_position anchor_name) (word_position a) = true)
         als.

(** A cluster is made of an anchor row and merged rows of the frame:
    it has the anchor's name, the merged rows' names as aliases and the
    sum of their counts. *)
Definition cluster_of_rows (frame : list PRow) (c : Cluster) : Prop :=
  exists anchor ms,
    anchor ∈ frame
    /\ Forall (fun r => r ∈ frame) ms
    /\ c_party_name c = pname anchor
    /\ aliases c = map pname ms
    /\ c_party_count c = pcount anchor + total pcount ms.

(** A name passes against an anchor name: its score reaches 0.8 and
    its position lies in the anchor's window. *)
Definition passes (smr : string -> string -> Q) (fr : string -> string -> Z)
    (alg : string) (anchor_name n : string) : Prop :=
  Qle_bool (8 # 10) (score smr fr alg anchor_name n) = true
  /\ in_window (word_position anchor_name) (word_position n) = true.

(** No row that passes against the anchor of a cluster is left for a
    later cluster. *)
Definition greedy_complete (smr : string -> string -> Q) (fr : string -> string -> Z)
    (alg : string) (frame : list PRow) (cs : list Cluster) : Prop :=
  forall cs1 c cs2 r,
    cs = cs1 ++ c :: cs2 -> r ∈ frame ->
    passes smr fr alg (c_party_name c) (pname r) ->
    pname r ∈ flat_map members (cs1 ++ [c]).

(** ** The definitions on small inputs *)

Example split_spaces : Str.split " " "abc  def " = ["abc"; ""; "def"; ""].
Proof. reflexivity. Qed.

Example split_empty : Str.split " " "" = [""].
Proof. reflexivity. Qed.

Example join_bar : Str.join "|" ["a"; "b"; "c"] = "a|b|c".
Proof. reflexivity. Qed.

Example sub_ws_runs : Str.sub_ws false "  a   b  " = " a b ".
Proof. reflexivity. Qed.

Example translate_digits :
  Str.translate punct_digits "No. 5 (A&B)" = "No  AB"
  /\ Str.translate punct_only "No. 5 (A&B)" = "No 5 AB".
Proof. split; reflexivity. Qed.

Example remove_punc_num_columns :
  remove_punc_num true ["a|b"; "c"] = None
  /\ remove_punc_num true ["a,b"; "c"] = Some ["ab"; "c"]
  /\ remove_punc_num true [] = Some [EmptyString].
Proof. repeat split; reflexivity. Qed.

Example remove_stopwords_tokens :
  remove_stopwords "abc llc" = "abc" /\ remove_stopwords "llcabc inc" = "llcabc".
Proof. split; vm_compute; reflexivity. Qed.

Example abbreviate_tokens :
  abbreviate notebook_abbreviations "acme property management" = "acme prop mgt".
Proof. vm_compute. reflexivity. Qed.

Example word_position_values :
  word_position "abc apt" = 434 /\ word_position "abc apts" = 518
  /\ word_position "" = 0.
Proof. repeat split; reflexivity. Qed.

Example in_window_values :
  in_window 434 518 = true /\ in_window 518 434 = true
  /\ in_window 434 702 = false /\ in_window 0 0 = true /\ in_window (-10) (-10) = false.
Proof. repeat split; reflexivity. Qed.

Example fuzz_ratio_values : fuzz_ratio_indel "abc apt" "abc apts" = 93.
Proof. vm_compute. reflexivity. Qed.

Example exact_merge_sums :
  exact_merge [(0%nat, mkRow "a" "p" "x" "e" 2020 3);
               (1%nat, mkRow "b" "d" "y" "e" 2019 4);
               (2%nat, mkRow "a" "d" "z" "f" 2018 5)]
  = [(0%nat, mkRow "a" "p" "x" "e" 2020 8); (1%nat, mkRow "b" "d" "y" "e" 2019 4)].
Proof. vm_compute. reflexivity. Qed.

Example sum64_wraps :
  sum64 [3; 5] = 8
  /\ sum64 [4611686018427387904; 4611686018427387904] = -9223372036854775808
  /\ sum64 [-9223372036854775808; -1] = 9223372036854775807.
Proof. repeat split; reflexivity. Qed.

Example sample_run :
  option_map output_df
    (returned (run sample_ratio fuzz_ratio_indel sample_config sample_table))
  = Some [mkCluster "abc apt" ["abc apts"] ["plaintiff"; "defendant"]
            ["1 Main St"] ["eviction"] [2020; 2019] 12;
          mkCluster "smith john" [] ["defendant"] ["3 Oak Ave"] ["eviction"] [2018] 1].
Proof. vm_compute. reflexivity. Qed.
(** ** Sums of counts *)

Lemma total_app {A} (f : A -> Z) (l k : list A) :
  total f (l ++ k) = total f l + total f k.
Proof. induction l as [|x l IH]; simpl; [done | rewrite IH; lia]. Qed.

Lemma total_perm {A} (f : A -> Z) (l k : list A) :
  l ≡ₚ k -> total f l = total f k.
Proof. induction 1; simpl; lia. Qed.

Lemma total_map {A B} (g : A -> B) (f : B -> Z) (l : list A) :
  total f (map g l) = total (fun x => f (g x)) l.
Proof. induction l as [|x l IH]; simpl; [done | by rewrite IH]. Qed.

(** Two rows of a list with pairwise distinct keys and the same key
    are the same row. *)
Lemma NoDup_key_inj {A B} (f : A -> B) (l : list A) (x y : A) :
  NoDup (map f l) -> x ∈ l -> y ∈ l -> f x = f y -> x = y.
Proof.
  induction l as [|a l IH]; simpl; intros Hnd Hx Hy Hf.
  - by apply elem_of_nil in Hx.
  - apply NoDup_cons in Hnd as [Ha Hnd].
    apply elem_of_cons in Hx as [->|Hx]; apply elem_of_cons in Hy as [->|Hy];
      try done.
    + exfalso. apply Ha. rewrite Hf. by apply (list_elem_of_fmap_2 f).
    + exfalso. apply Ha. rewrite <- Hf. by apply (list_elem_of_fmap_2 f).
    + by apply IH.
Qed.

Lemma append_new_fresh `{EqDecision A} (x : A) (l : list A) :
  x ∉ l -> append_new x l = l ++ [x].
Proof. intros H. unfold append_new. by rewrite decide_False. Qed.

(** ** The cluster-builder loop keeps its books *)

Section BuilderInvariant.

Variable SequenceMatcher_ratio : string -> string -> Q.
Variable fuzz_ratio : string -> string -> Z.
Variable alg : string.
Variable frame : list PRow.
Hypothesis name_unique : NoDup (map pname frame).

Abbreviation mstep := (merge_step SequenceMatcher_ratio fuzz_ratio alg).
Abbreviation cstep := (cluster_step SequenceMatcher_ratio fuzz_ratio alg frame).

Lemma merge_step_inv anchor used m0 acc ms row_2 :
  Forall (fun r => r ∈ frame) used ->
  row_2 ∈ frame ->
  acc_inv frame anchor used m0 acc ms ->
  exists ms', acc_inv frame anchor used m0 (mstep anchor acc row_2) ms'.
Proof.
  intros Hused Hin (Hrem & Hms & Hnd & Hal & Hcnt & Hm).
  unfold merge_step.
  destruct (decide (index row_2 ∈ a_removed acc)) as [|Hfresh];
    [by exists ms|].
  destruct (Qle_bool _ _); [|by exists ms].
  exists (ms ++ [row_2]). unfold acc_inv; simpl.
  rewrite Hrem in Hfresh.
  assert (pname row_2 ∉ a_aliases acc) as Hnew.
  { rewrite Hal. intros Hdup.
    apply list_elem_of_fmap in Hdup as (r & Hr & Hrin).
    assert (r ∈ frame) as Hrf by (by eapply Forall_forall in Hms).
    assert (row_2 = r) as -> by (by eapply (NoDup_key_inj pname frame)).
    apply Hfresh. apply list_elem_of_fmap_2. apply elem_of_app. by right. }
  rewrite (append_new_fresh _ _ Hnew), Hrem, Hal, Hcnt, Hm.
  rewrite !app_assoc, !map_app, total_app, length_app. simpl.
  repeat split.
  - apply Forall_app. split; [done|]. by apply Forall_singleton.
  - rewrite <- map_app. apply NoDup_app. split; [done|]. split.
    + intros i Hi Hi'. apply list_elem_of_singleton in Hi'. by subst.
    + apply NoDup_singleton.
  - unfold pcount. lia.
  - lia.
Qed.

Lemma merge_loop_inv anchor used m0 l : forall acc ms,
  Forall (fun r => r ∈ frame) used ->
  Forall (fun r => r ∈ frame) l ->
  acc_inv frame anchor used m0 acc ms ->
  exists ms', acc_inv frame anchor used m0 (foldl (mstep anchor) acc l) ms'.
Proof.
  induction l as [|r l IH]; intros acc ms Hused Hl Hinv; simpl.
  - by exists ms.
  - apply Forall_cons in Hl as [Hr Hl].
    destruct (merge_step_inv anchor used m0 acc ms r Hused Hr Hinv) as [ms' Hinv'].
    by apply (IH _ ms').
Qed.

Lemma test_set_frame anchor : Forall (fun r => r ∈ frame) (test_set frame anchor).
Proof.
  apply Forall_forall. intros r Hr. unfold test_set in Hr.
  by apply list_elem_of_filter in Hr as [_ Hr].
Qed.

Lemma cluster_step_inv st used anchor :
  anchor ∈ frame ->
  builder_inv frame st used ->
  exists used', builder_inv frame (cstep st anchor) used'.
Proof.
  intros Hin (Hrem & Hused & Hnd & Hmem & Hcnt & Hm).
  unfold cluster_step.
  destruct (decide (index anchor ∈ removed st)) as [|Hfresh];
    [by exists used|].
  rewrite Hrem in Hfresh.
  set (acc0 := mkAcc _ _ _ _ _ _ _ _).
  assert (Forall (fun r => r ∈ frame) (used ++ [anchor])) as Hused'.
  { apply Forall_app. split; [done|]. by apply Forall_singleton. }
  assert (acc_inv frame anchor (used ++ [anchor]) (matches st) acc0 []) as Hacc0.
  { unfold acc_inv, acc0; simpl. rewrite !app_nil_r, Hrem, map_app. simpl.
    repeat split; try done; try (unfold pcount; lia).
    apply NoDup_app. split; [done|]. split.
    - intros i Hi Hi'. apply list_elem_of_singleton in Hi'. by subst.
    - apply NoDup_singleton. }
  destruct (merge_loop_inv anchor (used ++ [anchor]) (matches st)
              (test_set frame anchor) acc0 [] Hused' (test_set_frame anchor) Hacc0)
    as (ms & Hrem' & Hms & Hnd' & Hal & Hcnt' & Hm').
  exists ((used ++ [anchor]) ++ ms). unfold builder_inv; simpl.
  rewrite flat_map_app, !total_app, !length_app, !map_app. simpl.
  rewrite Hrem', Hal, Hcnt', Hm', Hmem, Hcnt, !map_app, app_nil_r. simpl.
  repeat split.
  - apply Forall_app. by split.
  - by rewrite !map_app in Hnd'.
  - by rewrite <- app_assoc.
  - unfold pcount. lia.
  - lia.
Qed.

Lemma cluster_loop_inv l : forall st used,
  Forall (fun r => r ∈ frame) l ->
  builder_inv frame st used ->
  exists used', builder_inv frame (foldl cstep st l) used'.
Proof.
  induction l as [|r l IH]; intros st used Hl Hinv; simpl.
  - by exists used.
  - apply Forall_cons in Hl as [Hr Hl].
    destruct (cluster_step_inv st used r Hr Hinv) as [used' Hinv'].
    by apply (IH _ used').
Qed.

End BuilderInvariant.

(** ** Every row ends up consumed *)

Section BuilderCoverage.

Variable SequenceMatcher_ratio : string -> string -> Q.
Variable fuzz_ratio : string -> string -> Z.
Variable alg : string.
Variable frame : list PRow.

Abbreviation mstep' := (merge_step SequenceMatcher_ratio fuzz_ratio alg).
Abbreviation cstep' := (cluster_step SequenceMatcher_ratio fuzz_ratio alg frame).

Lemma merge_step_removed anchor acc row_2 i :
  i ∈ a_removed acc -> i ∈ a_removed (mstep' anchor acc row_2).
Proof.
  intros Hi. unfold merge_step.
  destruct (decide _); [done|]. destruct (Qle_bool _ _); [|done].
  simpl. apply elem_of_app. by left.
Qed.

Lemma merge_loop_removed anchor l : forall acc i,
  i ∈ a_removed acc -> i ∈ a_removed (foldl (mstep' anchor) acc l).
Proof.
  induction l as [|r l IH]; intros acc i Hi; simpl; [done|].
  apply IH. by apply merge_step_removed.
Qed.

Lemma cluster_step_removed st anchor i :
  i ∈ removed st -> i ∈ removed (cstep' st anchor).
Proof.
  intros Hi. unfold cluster_step. destruct (decide _); [done|]. simpl.
  apply merge_loop_removed. simpl. apply elem_of_app. by left.
Qed.

Lemma cluster_step_consumes st anchor :
  index anchor ∈ removed (cstep' st anchor).
Proof.
  unfold cluster_step. destruct (decide _); [done|]. simpl.
  apply merge_loop_removed. simpl. apply elem_of_app. right.
  by apply list_elem_of_singleton.
Qed.

Lemma cluster_loop_removed l : forall st i,
  i ∈ removed st -> i ∈ removed (foldl cstep' st l).
Proof.
  induction l as [|r l IH]; intros st i Hi; simpl; [done|].
  apply IH. by apply cluster_step_removed.
Qed.

Lemma cluster_loop_consumes l : forall st r,
  r ∈ l -> index r ∈ removed (foldl cstep' st l).
Proof.
  induction l as [|a l IH]; intros st r Hr; simpl.
  - by apply elem_of_nil in Hr.
  - apply elem_of_cons in Hr as [->|Hr].
    + apply cluster_loop_removed, cluster_step_consumes.
    + by apply IH.
Qed.

End BuilderCoverage.

Lemma members_length (cs : list Cluster) :
  length (flat_map members cs) = (length cs + length (flat_map aliases cs))%nat.
Proof.
  induction cs as [|c cs IH]; simpl; [done|].
  rewrite !length_app, IH. lia.
Qed.

(** The books of the finished loop, for a frame whose index labels and
    names are pairwise distinct. *)
Lemma build_books (smr : string -> string -> Q) (fr : string -> string -> Z)
    (alg : string) (frame : list PRow) :
  NoDup (map index frame) ->
  NoDup (map pname frame) ->
  let st := build smr fr alg frame in
  (exists used,
     used ≡ₚ frame
     /\ removed st = map index used
     /\ flat_map members (clusters st) = map pname used)
  /\ NoDup (removed st)
  /\ removed st ≡ₚ map index frame
  /\ flat_map members (clusters st) ≡ₚ map pname frame
  /\ total c_party_count (clusters st) = total pcount frame
  /\ matches st = Z.of_nat (length (flat_map aliases (clusters st))).
Proof.
  intros Hidx Hnm st.
  assert (builder_inv frame (mkBuilder [] [] 0) []) as H0.
  { unfold builder_inv; simpl. repeat split; try done; constructor. }
  assert (Forall (fun r => r ∈ frame) frame) as Hall by (by apply Forall_forall).
  destruct (cluster_loop_inv smr fr alg frame Hnm frame _ [] Hall H0)
    as (used & Hrem & Hused & Hnd & Hmem & Hcnt & Hm).
  fold (build smr fr alg frame) in Hrem, Hmem, Hcnt, Hm. fold st in Hrem, Hmem, Hcnt, Hm.
  assert (used ≡ₚ frame) as Hperm.
  { apply NoDup_Permutation.
    - by eapply NoDup_fmap_1.
    - by eapply NoDup_fmap_1.
    - intros r. split; intros Hr.
      + by eapply Forall_forall in Hused.
      + pose proof (cluster_loop_consumes smr fr alg frame frame
                      (mkBuilder [] [] 0) r Hr) as Hc.
        fold (build smr fr alg frame) in Hc. fold st in Hc. rewrite Hrem in Hc.
        apply list_elem_of_fmap in Hc as (r' & Heq & Hr').
        assert (r' ∈ frame) as Hr'f by (by eapply Forall_forall in Hused).
        by rewrite (NoDup_key_inj index frame r r' Hidx Hr Hr'f Heq). }
  split; [by exists used|]. repeat split.
  - by rewrite Hrem.
  - rewrite Hrem. by apply fmap_Permutation.
  - rewrite Hmem. by apply fmap_Permutation.
  - rewrite Hcnt. by apply total_perm.
  - pose proof (members_length (clusters st)) as Hlen.
    rewrite Hmem, length_map in Hlen. lia.
Qed.

(** ** The exact-merge pass *)

Lemma drop_duplicates_fresh (l : Frame) : forall seen,
  Forall (fun ir => rname ir ∉ seen) (drop_duplicates seen l).
Proof.
  induction l as [|ir l IH]; intros seen; simpl; [constructor|].
  destruct (decide _) as [|Hn]; [apply IH|].
  constructor; [done|].
  eapply Forall_impl; [apply IH|]. simpl. intros x Hx Hin. apply Hx.
  apply elem_of_cons. by right.
Qed.

Lemma drop_duplicates_names (l : Frame) : forall seen,
  NoDup (map rname (drop_duplicates seen l)).
Proof.
  induction l as [|ir l IH]; intros seen; simpl; [constructor|].
  destruct (decide _) as [|Hn]; [apply IH|].
  simpl. apply NoDup_cons. split; [|apply IH].
  intros Hin. apply list_elem_of_fmap in Hin as (x & Hx & Hxin).
  pose proof (drop_duplicates_fresh l (party_name ir.2 :: seen)) as Hf.
  eapply Forall_forall in Hf; [|exact Hxin]. apply Hf.
  apply elem_of_cons. left. by rewrite <- Hx.
Qed.

Lemma drop_duplicates_sublist (l : Frame) : forall seen,
  drop_duplicates seen l `sublist_of` l.
Proof.
  induction l as [|ir l IH]; intros seen; simpl; [done|].
  destruct (decide _); [apply sublist_cons | apply sublist_skip]; apply IH.
Qed.

(** Dropping duplicates looks at names only. *)
Lemma drop_duplicates_map (g : nat * Row -> nat * Row) (l : Frame) :
  (forall ir, rname (g ir) = rname ir) ->
  forall seen, drop_duplicates seen (map g l) = map g (drop_duplicates seen l).
Proof.
  intros Hg. induction l as [|ir l IH]; intros seen; simpl; [done|].
  pose proof (Hg ir) as Hn. unfold rname in Hn. rewrite Hn.
  destruct (decide _); simpl; by rewrite IH.
Qed.

Lemma total_cons {A} (f : A -> Z) (x : A) (l : list A) :
  total f (x :: l) = f x + total f l.
Proof. done. Qed.

Lemma total_ext_in {A} (f g : A -> Z) (l : list A) :
  Forall (fun x => f x = g x) l -> total f l = total g l.
Proof. induction 1 as [|x l Hx _ IH]; [done|]. by rewrite !total_cons, Hx, IH. Qed.

Lemma group_counts_cons_ne (r : nat * Row) (l : Frame) (n : string) :
  rname r <> n -> group_counts (r :: l) n = group_counts l n.
Proof.
  intros Hne. unfold group_counts. rewrite filter_cons.
  unfold rname in Hne. by rewrite decide_False.
Qed.

Lemma group_counts_cons_eq (r : nat * Row) (l : Frame) :
  group_counts (r :: l) (rname r) = rcount r :: group_counts l (rname r).
Proof.
  unfold group_counts. rewrite filter_cons. unfold rname. by rewrite decide_True.
Qed.

Lemma group_total_cons_ne (r : nat * Row) (l : Frame) (n : string) :
  rname r <> n -> group_total (r :: l) n = group_total l n.
Proof. intros Hne. unfold group_total. by rewrite group_counts_cons_ne. Qed.

Lemma group_total_cons_eq (r : nat * Row) (l : Frame) :
  group_total (r :: l) (rname r) = rcount r + group_total l (rname r).
Proof. unfold group_total. by rewrite group_counts_cons_eq. Qed.

Lemma group_total_skip (r : nat * Row) (l : Frame) (ks : Frame) :
  Forall (fun q => rname q <> rname r) ks ->
  total (fun q => group_total (r :: l) (rname q)) ks
  = total (fun q => group_total l (rname q)) ks.
Proof.
  intros H. apply total_ext_in. eapply Forall_impl; [exact H|].
  intros q Hq. cbv beta. apply group_total_cons_ne. congruence.
Qed.

Lemma group_total_split (n : string) (seen : list string) (l : Frame) :
  n ∉ seen ->
  group_total l n
  + total (fun q => if decide (rname q ∈ n :: seen) then 0 else rcount q) l
  = total (fun q => if decide (rname q ∈ seen) then 0 else rcount q) l.
Proof.
  intros Hn. induction l as [|q l IH]; [done|].
  rewrite !total_cons.
  destruct (decide (rname q = n)) as [<-|Hne].
  - rewrite group_total_cons_eq.
    rewrite decide_True by (apply elem_of_cons; by left).
    rewrite decide_False by done. lia.
  - rewrite group_total_cons_ne by done.
    destruct (decide (rname q ∈ seen)) as [Hin|Hnin].
    + rewrite decide_True by (apply elem_of_cons; by right). lia.
    + rewrite decide_False; [lia|].
      intros [?|?]%elem_of_cons; done.
Qed.

(** Summing the group totals over the first rows of the groups gives
    the total of the rows whose name was not seen before. *)
Lemma drop_duplicates_total (l : Frame) : forall seen,
  total (fun q => group_total l (rname q)) (drop_duplicates seen l)
  = total (fun q => if decide (rname q ∈ seen) then 0 else rcount q) l.
Proof.
  induction l as [|r l IH]; intros seen; [done|].
  rewrite total_cons. cbn [drop_duplicates]. fold (rname r).
  destruct (decide (rname r ∈ seen)) as [Hin|Hnin].
  - rewrite group_total_skip, IH; [lia|].
    eapply Forall_impl; [apply drop_duplicates_fresh|].
    cbv beta. intros q Hq Heq. apply Hq. by rewrite Heq.
  - rewrite total_cons, group_total_cons_eq, group_total_skip, IH.
    + pose proof (group_total_split (rname r) seen l Hnin) as Hs. lia.
    + eapply Forall_impl; [apply drop_duplicates_fresh|].
      cbv beta. intros q Hq Heq. apply Hq. apply elem_of_cons. by left.
Qed.

Lemma total_ext {A} (f g : A -> Z) (l : list A) :
  (forall x, f x = g x) -> total f l = total g l.
Proof. intros H. induction l as [|x l IH]; simpl; [done | by rewrite H, IH]. Qed.

(** *** Sums of [int64] cells *)

Lemma wrap64_in (z : Z) : in_int64 z -> wrap64 z = z.
Proof.
  unfold in_int64, wrap64, int64_min, int64_max, int64_modulus. intros H.
  rewrite Z.mod_small by lia. lia.
Qed.

Lemma wrap64_mod (z : Z) : exists k, wrap64 z = z + k * int64_modulus.
Proof.
  unfold wrap64. exists (- ((z - int64_min) / int64_modulus)).
  rewrite Z.mod_eq by done. lia.
Qed.

Lemma wrap64_congr (a b k : Z) : a = b + k * int64_modulus -> wrap64 a = wrap64 b.
Proof.
  intros ->. unfold wrap64. f_equal.
  replace (b + k * int64_modulus - int64_min)
    with (b - int64_min + k * int64_modulus) by lia.
  apply Z_mod_plus_full.
Qed.

Lemma wrap64_range (z : Z) : in_int64 (wrap64 z).
Proof.
  unfold in_int64, wrap64.
  pose proof (Z.mod_pos_bound (z - int64_min) int64_modulus ltac:(done)) as H.
  unfold int64_min, int64_max, int64_modulus in *. lia.
Qed.

Lemma sum64_cons (c d : Z) (l : list Z) :
  sum64 (c :: d :: l) = wrap64 (c + sum64 (d :: l)).
Proof. done. Qed.

(** The sum of the cells differs from the sum of the integers by a
    multiple of 2^64. *)
Lemma sum64_mod (l : list Z) :
  exists k, sum64 l = total (fun c => c) l + k * int64_modulus.
Proof.
  induction l as [|c l [k IH]]; [by exists 0|].
  destruct l as [|d l]; [exists 0; simpl; lia|].
  rewrite sum64_cons.
  destruct (wrap64_mod (c + sum64 (d :: l))) as [k' Hk'].
  exists (k + k'). rewrite Hk', IH, (total_cons _ c). lia.
Qed.

(** It is the sum of the integers when that sum is an [int64]. *)
Lemma sum64_exact (l : list Z) :
  in_int64 (total (fun c => c) l) -> sum64 l = total (fun c => c) l.
Proof.
  destruct l as [|c [|d l]]; [done | simpl; lia |]. intros Hin.
  rewrite sum64_cons.
  destruct (sum64_mod (d :: l)) as [k Hk].
  rewrite (wrap64_congr _ (total (fun c => c) (c :: d :: l)) k).
  - by apply wrap64_in.
  - rewrite Hk, (total_cons _ c). lia.
Qed.

Lemma group_sum_mod (d : Frame) (n : string) :
  exists k, group_sum d n = group_total d n + k * int64_modulus.
Proof. apply sum64_mod. Qed.

Lemma group_sum_exact (d : Frame) (n : string) :
  in_int64 (group_total d n) -> group_sum d n = group_total d n.
Proof. apply sum64_exact. Qed.

Lemma total_mod {A} (f g : A -> Z) (l : list A) :
  (forall x, exists k, f x = g x + k * int64_modulus) ->
  exists k, total f l = total g l + k * int64_modulus.
Proof.
  intros H. induction l as [|x l [k IH]]; [by exists 0|].
  destruct (H x) as [k' Hk']. exists (k' + k).
  rewrite !total_cons, Hk', IH. lia.
Qed.

Lemma multiple_mod (a b k : Z) :
  a = b + k * int64_modulus -> (a - b) mod int64_modulus = 0.
Proof.
  intros ->. replace (b + k * int64_modulus - b) with (k * int64_modulus) by lia.
  apply Z_mod_mult.
Qed.

(** *** The count mass through the exact-merge pass *)

Lemma exact_merge_groups (l : Frame) :
  total rcount (exact_merge l)
  = total (fun q => group_sum l (rname q)) (drop_duplicates [] l).
Proof.
  unfold exact_merge, transform_sum.
  rewrite drop_duplicates_map by done.
  by rewrite total_map.
Qed.

Lemma group_totals_total (l : Frame) :
  total (fun q => group_total l (rname q)) (drop_duplicates [] l) = total rcount l.
Proof.
  rewrite drop_duplicates_total. apply total_ext. intros x.
  rewrite decide_False; [done | apply not_elem_of_nil].
Qed.

(** The exact-merge pass preserves the count mass up to a multiple of
    2^64. *)
Lemma exact_merge_total_mod (l : Frame) :
  exists k, total rcount (exact_merge l) = total rcount l + k * int64_modulus.
Proof.
  rewrite exact_merge_groups, <- group_totals_total.
  apply total_mod. intros q. apply group_sum_mod.
Qed.

(** It preserves the count mass when no group total leaves the [int64]
    range. *)
Lemma exact_merge_total (l : Frame) :
  (forall n, in_int64 (group_total l n)) ->
  total rcount (exact_merge l) = total rcount l.
Proof.
  intros Hin. rewrite exact_merge_groups, <- group_totals_total.
  apply total_ext. intros q. by apply group_sum_exact.
Qed.

Lemma exact_merge_names (l : Frame) : NoDup (map rname (exact_merge l)).
Proof. apply drop_duplicates_names. Qed.

Lemma exact_merge_index (l : Frame) : NoDup (map fst l) -> NoDup (map fst (exact_merge l)).
Proof.
  intros Hnd. unfold exact_merge.
  apply (sublist_NoDup _ (map fst (transform_sum l))).
  - unfold transform_sum. by rewrite map_map.
  - apply (fmap_sublist fst), drop_duplicates_sublist.
Qed.

(** ** The loaded frame *)

Lemma load_index (n : nat) (t : list Row) : map fst (load n t) = seq 0 (length (take n t)).
Proof. unfold load. apply fst_zip. by rewrite length_seq. Qed.

Lemma load_rows (n : nat) (t : list Row) : map snd (load n t) = take n t.
Proof. unfold load. apply snd_zip. by rewrite length_seq. Qed.

Lemma set_names_index (d : Frame) : forall names,
  length names = length d -> map fst (set_names d names) = map fst d.
Proof.
  induction d as [|ir d IH]; intros [|n names] Hlen; simpl in *; try done.
  f_equal. apply IH. lia.
Qed.

Lemma set_names_total (d : Frame) : forall names,
  length names = length d -> total rcount (set_names d names) = total rcount d.
Proof.
  induction d as [|ir d IH]; intros [|n names] Hlen; simpl in *; try done.
  unfold set_names in IH. rewrite IH by lia. done.
Qed.

Lemma normalize_column_length (cfg : Config) (names out : list string) :
  names <> [] ->
  normalize_column cfg names = Some out -> length out = length names.
Proof.
  intros Hne. unfold normalize_column, remove_punc_num.
  destruct names as [|n names]; [done|].
  destruct (_ =? _)%nat eqn:Hlen; [|done].
  apply Nat.eqb_eq in Hlen. intros [= <-].
  repeat case_match; by rewrite ?length_map.
Qed.

Lemma add_position_index (d : Frame) : map index (add_position d) = map fst d.
Proof. unfold add_position. rewrite map_map. done. Qed.

Lemma add_position_names (d : Frame) : map pname (add_position d) = map rname d.
Proof. unfold add_position. rewrite map_map. done. Qed.

Lemma add_position_total (d : Frame) : total pcount (add_position d) = total rcount d.
Proof. unfold add_position. rewrite total_map. done. Qed.

(** ** The whole run *)

(** What a run that returns leaves behind: the working frame has
    pairwise distinct index labels and names, and the outputs are those
    of the loop on that frame. *)
Lemma run_frame (smr : string -> string -> Q) (fr : string -> string -> Z)
    (cfg : Config) (loaded_data : list Row) (res : Result) :
  run smr fr cfg loaded_data = Returns res ->
  NoDup (map index (data res))
  /\ NoDup (map pname (data res))
  /\ output_df res = clusters (build smr fr (algorithm cfg) (data res))
  /\ fuzzy_match_count res = matches (build smr fr (algorithm cfg) (data res)).
Proof.
  unfold run.
  destruct (normalize_column _ _) as [names|] eqn:Hn; [|done].
  destruct (load (size cfg) loaded_data) as [|ir0 d0] eqn:Hl; [done|].
  apply normalize_column_length in Hn; [|done].
  unfold names_of in Hn. rewrite length_map in Hn.
  rewrite <- Hl in Hn |- *. intros [= <-]. cbn [data output_df fuzzy_match_count].
  repeat split.
  - rewrite add_position_index. apply exact_merge_index.
    rewrite set_names_index by done. rewrite load_index. apply NoDup_seq.
  - rewrite add_position_names. apply exact_merge_names.
Qed.

(** C2. Partition and permanent consumption: an iteration whose row is
    already in [removed] changes nothing, be it as anchor or as
    candidate, and [removed] never loses an entry; at the end of a run
    the consumed rows, in the order of [removed], are the rows of the
    working frame, each once, and their names are the names of the
    clusters read in order (anchor, then aliases): [removed] holds every
    index label exactly once and every name of the frame, all distinct,
    stands in exactly one cluster. *)
Theorem partition_consumption (smr : string -> string -> Q) (fr : string -> string -> Z)
    (cfg : Config) (loaded_data : list Row) (res : Result) :
  run smr fr cfg loaded_data = Returns res ->
  let alg := algorithm cfg in
  let st := build smr fr alg (data res) in
  (forall s r, index r ∈ removed s -> cluster_step smr fr alg (data res) s r = s)
  /\ (forall a acc r, index r ∈ a_removed acc -> merge_step smr fr alg a acc r = acc)
  /\ (forall s r i, i ∈ removed s -> i ∈ removed (cluster_step smr fr alg (data res) s r))
  /\ output_df res = clusters st
  /\ (exists used,
        used ≡ₚ data res
        /\ removed st = map index used
        /\ flat_map members (output_df res) = map pname used)
  /\ NoDup (removed st)
  /\ removed st ≡ₚ map index (data res)
  /\ NoDup (map pname (data res))
  /\ flat_map members (output_df res) ≡ₚ map pname (data res).
Proof.
  intros Hrun alg st.
  destruct (run_frame _ _ _ _ _ Hrun) as (Hidx & Hnm & Hout & _).
  destruct (build_books smr fr alg (data res) Hidx Hnm)
    as (Hused & Hnd & Hperm & Hmem & _ & _).
  split; [|split; [|split]].
  - intros s r Hin. unfold cluster_step. by rewrite decide_True.
  - intros a acc r Hin. unfold merge_step. by rewrite decide_True.
  - intros s r i. apply cluster_step_removed.
  - rewrite Hout. by repeat split.
Qed.

(** C10. At the end of a run [fuzzy_match_count] is the number of alias
    entries of the output, all clusters together. *)
Theorem match_count_aliases (smr : string -> string -> Q) (fr : string -> string -> Z)
    (cfg : Config) (loaded_data : list Row) (res : Result) :
  run smr fr cfg loaded_data = Returns res ->
  fuzzy_match_count res
  = Z.of_nat (length (flat_map aliases (output_df res))).
Proof.
  intros Hrun.
  destruct (run_frame _ _ _ _ _ Hrun) as (Hidx & Hnm & Hout & Hfm).
  destruct (build_books smr fr (algorithm cfg) (data res) Hidx Hnm)
    as (_ & _ & _ & _ & _ & Hm).
  by rewrite Hfm, Hout.
Qed.

Lemma partition_consumption_witness :
  exists res,
    run sample_ratio fuzz_ratio_indel sample_config sample_table = Returns res
    /\ flat_map members (output_df res) ≡ₚ map pname (data res).
Proof.
  eexists. split; [vm_compute; reflexivity|].
  apply (partition_consumption sample_ratio fuzz_ratio_indel sample_config sample_table).
  vm_compute. reflexivity.
Defined.

Lemma match_count_aliases_witness :
  exists res,
    run sample_ratio fuzz_ratio_indel sample_config sample_table = Returns res
    /\ fuzzy_match_count res = Z.of_nat (length (flat_map aliases (output_df res))).
Proof.
  eexists. split; [vm_compute; reflexivity|].
  apply (match_count_aliases sample_ratio fuzz_ratio_indel sample_config sample_table).
  vm_compute. reflexivity.
Defined.

(** ** Similarity dispatch *)

(** C9. A selector other than ['seq'] and ['levenshtein'] scores every
    pair with the [seq] method; the dispatch is total, so nothing is
    raised. *)
Theorem score_fallback (smr : string -> string -> Q) (fr : string -> string -> Z)
    (alg a b : string) :
  alg <> "seq" -> alg <> "levenshtein" ->
  score smr fr alg a b = seq_score smr a b.
Proof.
  intros Hs Hl. unfold score.
  rewrite (decide_False (P := alg = "seq")) by done.
  by rewrite (decide_False (P := alg = "levenshtein")) by done.
Qed.

Lemma score_fallback_witness :
  score sample_ratio fuzz_ratio_indel "jaro" "abc apt" "abc apts"
  = seq_score sample_ratio "abc apt" "abc apts".
Proof.
  apply (score_fallback sample_ratio fuzz_ratio_indel "jaro" "abc apt" "abc apts");
    vm_compute; discriminate.
Defined.

(** ** Where the code leaves its documentation *)

(** C3. [sum_string] subtracts 64 from every code point: on the
    lowercased names a letter weighs 32 more than its alphabetic rank
    and a space weighs -32, so the position of ["a"] is 66 where the
    documented key is 34, and that of a single space is 1 where the
    documented key is 33. *)
Theorem block_key_divergence :
  word_position "a" = 66 /\ spec_block_key "a" = 34
  /\ word_position " " = 1 /\ spec_block_key " " = 33.
Proof. repeat split; vm_compute; reflexivity. Qed.

(** The position is the sum of [ord(c) - 31] over the name. *)
Lemma word_position_sum (s : string) :
  word_position s = sum_string s + 33 * Str.len s
  /\ (forall c r, word_position (String c r) = (Str.ord c - 31) + word_position r).
Proof.
  split; [unfold word_position; lia|].
  intros c r. unfold word_position, Str.len. simpl String.length. simpl sum_string. lia.
Qed.

(** C4. With the configured stopword list [['corp']] the normalizer
    still tests tokens against the global [stopwords]: ["abc corp llc"]
    becomes ["abc corp"], where dropping the configured stopwords gives
    ["abc llc"]. *)
Theorem configured_stopwords_ignored :
  normalize_column (mkConfig None (Some ["corp"]) 10000 "seq" true) ["abc corp llc"]
  = Some ["abc corp"]
  /\ spec_remove_stopwords ["corp"] "abc corp llc" = "abc llc".
Proof. split; vm_compute; reflexivity. Qed.

(** C5. A table of one row, run with the default [size] of 10000: one
    row goes in, one row survives, no duplicate was removed, and
    [dropped_duplicates_count] is 9999. *)
Theorem dropped_count_short_table :
  let table := [mkRow "Smith John" "defendant" "3 Oak Ave" "eviction" 2018 1] in
  exists res,
    run sample_ratio fuzz_ratio_indel (mkConfig None None 10000 "seq" true) table
    = Returns res
    /\ length table = 1%nat
    /\ length (data res) = 1%nat
    /\ dropped_duplicates_count res = 9999.
Proof.
  eexists. split; [vm_compute; reflexivity|]. repeat split.
Qed.

(** The metric is [size] minus the surviving rows; it is the number of
    removed rows exactly when the table has at least [size] rows. *)
Lemma dropped_count_formula (smr : string -> string -> Q) (fr : string -> string -> Z)
    (cfg : Config) (loaded_data : list Row) (res : Result) :
  run smr fr cfg loaded_data = Returns res ->
  dropped_duplicates_count res = Z.of_nat (size cfg) - Z.of_nat (length (data res))
  /\ ((size cfg <= length loaded_data)%nat ->
      dropped_duplicates_count res
      = Z.of_nat (length (take (size cfg) loaded_data)) - Z.of_nat (length (data res))).
Proof.
  unfold run. destruct (normalize_column _ _) as [names|]; [|done].
  destruct (load (size cfg) loaded_data); [done|].
  intros [= <-]. simpl. unfold add_position. rewrite length_map.
  split; [done|]. intros Hle. rewrite length_take. lia.
Qed.

(** ** Scenario A *)

(** C6. With the abbreviation table [{'apartments': 'apt'}], the
    stopword list [['llc']] and the ['levenshtein'] selector, the names
    ["ABC Apartments LLC"] and ["ABC Apts LLC"] become ["abc apt"] and
    ["abc apts"], both rows reach the cluster loop, their score is 0.93,
    above 0.8, and the output is one cluster with the two counts
    added. *)
Theorem scenario_a (smr : string -> string -> Q) (n : nat) (rn : bool)
    (t1 a1 k1 t2 a2 k2 : string) (y1 c1 y2 c2 : Z) :
  let table := [mkRow "ABC Apartments LLC" t1 a1 k1 y1 c1;
                mkRow "ABC Apts LLC" t2 a2 k2 y2 c2] in
  normalize_column (scenario_a_config n rn) (map party_name table)
  = Some ["abc apt"; "abc apts"]
  /\ (score smr fuzz_ratio_indel "levenshtein" "abc apt" "abc apts" == 93 # 100)%Q
  /\ (8 # 10 < score smr fuzz_ratio_indel "levenshtein" "abc apt" "abc apts")%Q
  /\ exists res,
       run smr fuzz_ratio_indel (scenario_a_config n rn) table = Returns res
       /\ map pname (data res) = ["abc apt"; "abc apts"]
       /\ fuzzy_match_count res = 1
       /\ output_df res
          = [mkCluster "abc apt" ["abc apts"]
               (append_new t2 [t1]) (append_new a2 [a1]) (append_new k2 [k1])
               (append_new y2 [y1]) (c1 + c2)].
Proof.
  intros table.
  split; [destruct rn; vm_compute; reflexivity|].
  split; [vm_compute; reflexivity|].
  split; [vm_compute; reflexivity|].
  assert (load (size (scenario_a_config n rn)) table
          = [(0%nat, mkRow "ABC Apartments LLC" t1 a1 k1 y1 c1);
             (1%nat, mkRow "ABC Apts LLC" t2 a2 k2 y2 c2)]) as Hload.
  { unfold load, scenario_a_config, table. simpl. by rewrite take_nil. }
  assert (run smr fuzz_ratio_indel (scenario_a_config n rn) table
          = Returns (mkResult
                    [mkPRow 0 (mkRow "abc apt" t1 a1 k1 y1 c1) 434;
                     mkPRow 1 (mkRow "abc apts" t2 a2 k2 y2 c2) 518]
                    (Z.of_nat (S (S n)) - 2) 1
                    [mkCluster "abc apt" ["abc apts"]
                       (append_new t2 [t1]) (append_new a2 [a1]) (append_new k2 [k1])
                       (append_new y2 [y1]) (c1 + c2)])) as Hrun.
  { unfold run. rewrite Hload. destruct rn; vm_compute; reflexivity. }
  eexists. split; [exact Hrun|]. simpl. repeat split.
Qed.

(** ** Splitting and joining *)

Lemma split_nonempty (sep : ascii) (s : string) : Str.split sep s <> [].
Proof.
  destruct s as [|c r]; simpl; [done|].
  destruct (Ascii.eqb c sep); [done|]. by destruct (Str.split sep r).
Qed.

Lemma join_cons (sep x y : string) (l : list string) :
  Str.join sep (x :: y :: l) = x +:+ sep +:+ Str.join sep (y :: l).
Proof. done. Qed.

Lemma join_cons_char (sep : ascii) (x y : string) (l : list string) :
  Str.join (String sep EmptyString) (x :: y :: l)
  = x +:+ String sep (Str.join (String sep EmptyString) (y :: l)).
Proof. done. Qed.

(** [sep.join(s.split(sep)) == s]. *)
Lemma join_split (sep : ascii) (s : string) :
  Str.join (String sep EmptyString) (Str.split sep s) = s.
Proof.
  induction s as [|c r IH]; [done|]. cbn [Str.split].
  destruct (Ascii.eqb c sep) eqn:Hc.
  - apply Ascii.eqb_eq in Hc as ->.
    pose proof (split_nonempty sep r) as Hne.
    destruct (Str.split sep r) as [|t ts]; [done|].
    rewrite join_cons, IH. done.
  - pose proof (split_nonempty sep r) as Hne.
    destruct (Str.split sep r) as [|t ts]; [done|].
    destruct ts as [|u ts].
    + simpl in *. by rewrite IH.
    + rewrite join_cons. cbn [String.append]. f_equal.
      rewrite <- IH. by rewrite join_cons.
Qed.

Lemma split_nosep (sep : ascii) (x : string) :
  Str.contains sep x = false -> Str.split sep x = [x].
Proof.
  induction x as [|c x IH]; [done|]. cbn [Str.contains Str.split].
  rewrite (Ascii.eqb_sym c sep).
  destruct (Ascii.eqb sep c); [done|]. intros H. by rewrite (IH H).
Qed.

Lemma split_app_sep (sep : ascii) (x rest : string) :
  Str.contains sep x = false ->
  Str.split sep (x +:+ String sep rest) = x :: Str.split sep rest.
Proof.
  induction x as [|c x IH]; intros H.
  - change (Str.split sep (String sep rest) = [EmptyString] ++ Str.split sep rest).
    cbn [Str.split]. by rewrite Ascii.eqb_refl.
  - change (Str.split sep (String c (x +:+ String sep rest))
            = String c x :: Str.split sep rest).
    cbn [Str.contains] in H. cbn [Str.split].
    rewrite (Ascii.eqb_sym c sep).
    destruct (Ascii.eqb sep c); [done|]. by rewrite (IH H).
Qed.

(** [sep.join(l).split(sep) == l] for a non-empty list of pieces free
    of [sep]. *)
Lemma split_join (sep : ascii) (l : list string) :
  l <> [] ->
  Forall (fun x => Str.contains sep x = false) l ->
  Str.split sep (Str.join (String sep EmptyString) l) = l.
Proof.
  induction l as [|x l IH]; [done|]. intros _ Hall.
  apply Forall_cons in Hall as [Hx Hl].
  destruct l as [|y l]; [by apply split_nosep|].
  rewrite join_cons_char, split_app_sep by done. by rewrite IH.
Qed.

Lemma split_join_cases (sep : ascii) (l : list string) :
  Forall (fun x => Str.contains sep x = false) l ->
  Str.split sep (Str.join (String sep EmptyString) l)
  = match l with [] => [EmptyString] | _ :: _ => l end.
Proof. destruct l; [done|]. intros H. by apply split_join. Qed.

Lemma split_pieces (sep : ascii) (s : string) :
  Forall (fun x => Str.contains sep x = false) (Str.split sep s).
Proof.
  induction s as [|c r IH]; cbn [Str.split]; [by repeat constructor|].
  destruct (Ascii.eqb c sep) eqn:Hc; [by constructor|].
  pose proof (split_nonempty sep r) as Hne.
  destruct (Str.split sep r) as [|t ts]; [done|].
  apply Forall_cons in IH as [Ht Hts]. constructor; [|done].
  cbn [Str.contains]. by rewrite Ascii.eqb_sym, Hc.
Qed.

(** ** [remove_punc_num] name by name *)

Lemma translate_app (p a b : string) :
  Str.translate p (a +:+ b) = Str.translate p a +:+ Str.translate p b.
Proof.
  induction a as [|c a IH]; [done|]. simpl.
  destruct (Str.contains c p); simpl; by rewrite IH.
Qed.

Lemma translate_join (p : string) (sep : ascii) (l : list string) :
  Str.contains sep p = false ->
  Str.translate p (Str.join (String sep EmptyString) l)
  = Str.join (String sep EmptyString) (map (Str.translate p) l).
Proof.
  intros Hsep. induction l as [|x l IH]; [done|].
  destruct l as [|y l]; [done|].
  rewrite join_cons, !translate_app, IH.
  cbn [map]. rewrite join_cons. f_equal.
  cbn [Str.translate]. by rewrite Hsep.
Qed.

Lemma translate_keeps_out (p : string) (c : ascii) (s : string) :
  Str.contains c s = false -> Str.contains c (Str.translate p s) = false.
Proof.
  induction s as [|d s IH]; [done|]. cbn [Str.contains Str.translate].
  destruct (Ascii.eqb c d) eqn:Hcd; [done|]. intros H.
  destruct (Str.contains d p); [by apply IH|].
  cbn [Str.contains]. rewrite Hcd. by apply IH.
Qed.

Lemma bar_not_punct (rn : bool) : Str.contains "|" (punct_of rn) = false.
Proof. by destruct rn. Qed.

(** On a non-empty column of names free of ['|'] the join, translate
    and split of [remove_punc_num] is the translation of each name. *)
Lemma remove_punc_num_names (rn : bool) (names : list string) :
  names <> [] ->
  Forall (fun n => Str.contains "|" n = false) names ->
  remove_punc_num rn names = Some (map (Str.translate (punct_of rn)) names).
Proof.
  intros Hne Hbar. unfold remove_punc_num.
  rewrite (translate_join _ "|") by apply bar_not_punct.
  rewrite split_join.
  - destruct names; [done|]. by rewrite length_map, Nat.eqb_refl.
  - by destruct names.
  - apply Forall_map. eapply Forall_impl; [exact Hbar|].
    intros n Hn. by apply translate_keeps_out.
Qed.

(** ** When [remove_punc_num] raises *)

Lemma split_length (sep : ascii) (s : string) :
  length (Str.split sep s) = S (count_char sep s).
Proof.
  induction s as [|c r IH]; [done|]. cbn [Str.split count_char].
  rewrite (Ascii.eqb_sym sep c). destruct (Ascii.eqb c sep).
  - cbn [length]. by rewrite IH.
  - pose proof (split_nonempty sep r) as Hne.
    destruct (Str.split sep r) as [|t ts]; [done|]. exact IH.
Qed.

Lemma count_char_app (c : ascii) (a b : string) :
  count_char c (a +:+ b) = (count_char c a + count_char c b)%nat.
Proof.
  induction a as [|d a IH]; [done|]. simpl.
  destruct (Ascii.eqb c d); simpl; by rewrite IH.
Qed.

Lemma count_char_translate (p : string) (c : ascii) (s : string) :
  Str.contains c p = false ->
  count_char c (Str.translate p s) = count_char c s.
Proof.
  intros Hc. induction s as [|d s IH]; [done|]. cbn [Str.translate count_char].
  destruct (Ascii.eqb c d) eqn:Hcd.
  - apply Ascii.eqb_eq in Hcd as <-. rewrite Hc. cbn [count_char].
    by rewrite Ascii.eqb_refl, IH.
  - destruct (Str.contains d p); [done|]. cbn [count_char]. by rewrite Hcd.
Qed.

Lemma count_char_zero (c : ascii) (s : string) :
  count_char c s = O <-> Str.contains c s = false.
Proof.
  induction s as [|d s IH]; [done|]. cbn [count_char Str.contains].
  destruct (Ascii.eqb c d); [done | exact IH].
Qed.

Lemma count_char_join (sep : ascii) (l : list string) :
  l <> [] ->
  S (count_char sep (Str.join (String sep EmptyString) l))
  = (length l + foldr Nat.add O (map (count_char sep) l))%nat.
Proof.
  induction l as [|x l IH]; [done|]. intros _.
  destruct l as [|y l]; [simpl; lia|].
  rewrite join_cons_char, count_char_app. cbn [count_char].
  rewrite Ascii.eqb_refl.
  specialize (IH ltac:(done)).
  cbn [length map foldr] in *. lia.
Qed.

Lemma column_ok_spec (names : list string) :
  column_ok names = true
  <-> Forall (fun n => Str.contains "|" n = false) names.
Proof.
  unfold column_ok. rewrite forallb_forall. split.
  - intros H. apply Forall_forall. intros x Hx.
    apply negb_true_iff, H. by apply list_elem_of_In.
  - intros H x Hx. apply negb_true_iff.
    eapply Forall_forall in H; [exact H|]. by apply list_elem_of_In.
Qed.

Lemma sum_zero (l : list nat) : foldr Nat.add O l = O <-> Forall (fun n => n = O) l.
Proof.
  induction l as [|n l IH]; [by split|]. cbn [foldr]. split.
  - intros H. constructor; [lia|]. apply IH. lia.
  - intros [-> H]%Forall_cons. apply IH in H. lia.
Qed.

(** [remove_punc_num] returns exactly on the columns of [column_ok],
    and then translates name by name, the name [''] of the grown frame
    included. *)
Lemma remove_punc_num_spec (rn : bool) (names : list string) :
  remove_punc_num rn names
  = if column_ok names
    then Some (map (Str.translate (punct_of rn)) (grown names)) else None.
Proof.
  destruct names as [|n names]; [done|]. cbn [grown].
  destruct (column_ok (n :: names)) eqn:Hok.
  - apply column_ok_spec in Hok. by apply remove_punc_num_names.
  - unfold remove_punc_num.
    rewrite split_length, count_char_translate by apply bar_not_punct.
    pose proof (count_char_join "|" (n :: names) ltac:(done)) as Hcnt.
    rewrite Hcnt.
    destruct (Nat.eqb_spec (length (n :: names) + foldr Nat.add O (map (count_char "|") (n :: names)))
                (length (n :: names))) as [Heq|]; [|done].
    exfalso. assert (foldr Nat.add O (map (count_char "|") (n :: names)) = O) as Hz by lia.
    apply sum_zero, Forall_map in Hz.
    assert (column_ok (n :: names) = true) as Hc; [|congruence].
    apply column_ok_spec.
    eapply Forall_impl; [exact Hz|]. intros x Hx. by apply count_char_zero.
Qed.

(** ** The shape of the pipeline *)

Lemma normalize_column_names (cfg : Config) (names : list string) :
  names <> [] ->
  Forall (fun n => Str.contains "|" n = false) names ->
  normalize_column cfg names = Some (map (normalize_name cfg) names).
Proof.
  intros Hne Hbar. unfold normalize_column.
  rewrite remove_punc_num_names by done. f_equal.
  rewrite !map_map.
  transitivity
    (map (abbr_step cfg)
       (map (stop_step cfg)
          (map (fun n => Str.lower (Str.sub_ws false
                  (Str.translate (punct_of (remove_numbers cfg)) n))) names))).
  - unfold abbr_step, stop_step.
    destruct (abbreviations cfg) as [abbr|];
      [destruct (truthy_dict (Some abbr))|];
      destruct (truthy_list (cfg_stopwords cfg));
      by rewrite ?map_map, ?map_id.
  - by rewrite !map_map.
Qed.

Lemma sub_ws_collapsed (s : string) : forall b,
  ws_collapsed b (Str.sub_ws b s) = true.
Proof.
  induction s as [|c r IH]; intros b; [done|]. cbn [Str.sub_ws].
  destruct (Str.is_space c) eqn:Hc.
  - destruct b; [apply IH|]. cbn [ws_collapsed].
    change (Str.is_space " ") with true. cbn. apply IH.
  - cbn [ws_collapsed]. rewrite Hc. apply IH.
Qed.

(** The name column after the five steps: [None] where
    [remove_punc_num] raises, else the five steps name by name. *)
Lemma normalize_column_spec (cfg : Config) (names : list string) :
  normalize_column cfg names
  = if column_ok names then Some (map (normalize_name cfg) (grown names)) else None.
Proof.
  destruct names as [|n names].
  - change (normalize_column cfg []) with (normalize_column cfg [EmptyString]).
    apply normalize_column_names; [done | by repeat constructor].
  - cbn [grown]. destruct (column_ok (n :: names)) eqn:Hok.
    + apply column_ok_spec in Hok. by apply normalize_column_names.
    + unfold normalize_column. by rewrite remove_punc_num_spec, Hok.
Qed.

(** ** The ends of a name through the whitespace step *)

Lemma trailing_ws_cons (c d : ascii) (r : string) :
  trailing_ws (String c (String d r)) = trailing_ws (String d r).
Proof. done. Qed.

Lemma ws_collapsed_cons (b : bool) (c : ascii) (r : string) :
  ws_collapsed b (String c r)
  = if Str.is_space c then Ascii.eqb c " " && negb b && ws_collapsed true r
    else ws_collapsed false r.
Proof. done. Qed.

Lemma sub_ws_cons (b : bool) (c : ascii) (r : string) :
  Str.sub_ws b (String c r)
  = if Str.is_space c then
      if b then Str.sub_ws true r else String " " (Str.sub_ws true r)
    else String c (Str.sub_ws false r).
Proof. done. Qed.

(** Inside a whitespace run nothing is written until the run ends. *)
Lemma sub_ws_run_empty (s : string) :
  Str.sub_ws true s = EmptyString <-> all_chars Str.is_space s = true.
Proof.
  induction s as [|c r IH]; [done|]. rewrite sub_ws_cons. cbn [all_chars].
  destruct (Str.is_space c); [exact IH | done].
Qed.

Lemma sub_ws_empty (s : string) : Str.sub_ws false s = EmptyString -> s = EmptyString.
Proof.
  destruct s as [|c r]; [done|]. rewrite sub_ws_cons. by destruct (Str.is_space c).
Qed.

Lemma sub_ws_run_leading (s : string) : leading_ws (Str.sub_ws true s) = false.
Proof.
  induction s as [|c r IH]; [done|]. rewrite sub_ws_cons.
  destruct (Str.is_space c) eqn:Hc; [exact IH | exact Hc].
Qed.

Lemma all_space_trailing (s : string) :
  s <> EmptyString -> all_chars Str.is_space s = true -> trailing_ws s = true.
Proof.
  induction s as [|c r IH]; [done|]. intros _ H. cbn [all_chars] in H.
  apply andb_true_iff in H as [Hc Hr].
  destruct r as [|d r]; [exact Hc|]. rewrite trailing_ws_cons. by apply IH.
Qed.

(** A leading whitespace run becomes one space. *)
Lemma sub_ws_leading (s : string) :
  leading_ws s = true ->
  exists r, Str.sub_ws false s = String " " r /\ leading_ws r = false.
Proof.
  destruct s as [|c s]; [done|]. cbn [leading_ws]. intros Hc.
  rewrite sub_ws_cons, Hc. eexists. split; [done | apply sub_ws_run_leading].
Qed.

Lemma sub_ws_leading_eq (s : string) :
  leading_ws (Str.sub_ws false s) = leading_ws s.
Proof.
  destruct s as [|c s]; [done|]. rewrite sub_ws_cons. cbn [leading_ws].
  by destruct (Str.is_space c) eqn:Hc.
Qed.

(** The result ends in whitespace exactly when the name does, unless
    the whole name continues a whitespace run. *)
Lemma sub_ws_trailing (s : string) : forall b,
  trailing_ws (Str.sub_ws b s)
  = trailing_ws s && negb (b && all_chars Str.is_space s).
Proof.
  induction s as [|c r IH]; intros b; [done|].
  destruct r as [|d r].
  - rewrite sub_ws_cons. cbn [Str.sub_ws all_chars trailing_ws].
    destruct (Str.is_space c) eqn:Hc; destruct b; cbn [trailing_ws]; rewrite ?Hc; done.
  - rewrite trailing_ws_cons, sub_ws_cons.
    change (all_chars Str.is_space (String c (String d r)))
      with (Str.is_space c && all_chars Str.is_space (String d r)).
    destruct (Str.is_space c) eqn:Hc.
    + destruct b.
      * by rewrite IH.
      * rewrite andb_false_l, andb_true_r.
        destruct (Str.sub_ws true (String d r)) as [|x X] eqn:HX.
        -- symmetry. apply all_space_trailing; [done|]. by apply sub_ws_run_empty.
        -- rewrite trailing_ws_cons, <- HX, IH.
           destruct (all_chars Str.is_space (String d r)) eqn:Ha.
           ++ apply sub_ws_run_empty in Ha. congruence.
           ++ by rewrite andb_true_r.
    + rewrite andb_false_l, andb_false_r, andb_true_r.
      destruct (Str.sub_ws false (String d r)) as [|x X] eqn:HX.
      * by apply sub_ws_empty in HX.
      * by rewrite trailing_ws_cons, <- HX, IH, andb_true_r.
Qed.

Lemma sub_ws_trailing_eq (s : string) :
  trailing_ws (Str.sub_ws false s) = trailing_ws s.
Proof. by rewrite sub_ws_trailing, andb_true_r. Qed.

(** A name of single spaces that ends in whitespace ends in one space
    that follows no whitespace. *)
Lemma collapsed_trailing (x : string) : forall b,
  ws_collapsed b x = true -> trailing_ws x = true ->
  exists r, x = r +:+ " " /\ trailing_ws r = false.
Proof.
  induction x as [|c y IH]; intros b Hw Ht; [done|].
  destruct y as [|d y].
  - cbn [trailing_ws] in Ht. rewrite ws_collapsed_cons, Ht in Hw.
    apply andb_true_iff in Hw as [Hw _]. apply andb_true_iff in Hw as [Hc _].
    apply Ascii.eqb_eq in Hc. subst c. by exists EmptyString.
  - rewrite trailing_ws_cons in Ht. rewrite ws_collapsed_cons in Hw.
    destruct (Str.is_space c) eqn:Hc.
    + apply andb_true_iff in Hw as [_ Hw].
      destruct (IH true Hw Ht) as (r & Hr & Hrt). exists (String c r).
      split; [by rewrite Hr|].
      destruct r as [|e r]; [|by rewrite trailing_ws_cons].
      rewrite Hr in Hw. done.
    + destruct (IH false Hw Ht) as (r & Hr & Hrt). exists (String c r).
      split; [by rewrite Hr|].
      destruct r as [|e r]; [exact Hc | by rewrite trailing_ws_cons].
Qed.

(** A trailing whitespace run becomes one space. *)
Lemma sub_ws_trailing_space (s : string) :
  trailing_ws s = true ->
  exists r, Str.sub_ws false s = r +:+ " " /\ trailing_ws r = false.
Proof.
  intros Ht. apply (collapsed_trailing _ false).
  - apply sub_ws_collapsed.
  - by rewrite sub_ws_trailing_eq.
Qed.

(** C7, as the code has it: on every column the code accepts (no name
    holding the joining ['|']), every name (of a column without names:
    the name [''] the frame has grown to) goes through deletion of
    punctuation (and digits), the whitespace substitution, lowercasing,
    the optional stopword removal and the optional abbreviation, in that
    order, and on any other column the assignment raises; after the
    whitespace substitution every whitespace character is a space and
    no two spaces are adjacent; nothing is trimmed: a leading
    whitespace run of the name has become one leading space, a trailing
    one one trailing space, and the result is trimmed exactly when the
    name was. *)
Theorem pipeline_shape (cfg : Config) (names : list string) :
  normalize_column cfg names
  = (if column_ok names
     then Some (map (fun n =>
                       abbr_step cfg
                         (stop_step cfg
                            (Str.lower
                               (Str.sub_ws false
                                  (Str.translate (punct_of (remove_numbers cfg)) n)))))
                    (grown names))
     else None)
  /\ (forall s, ws_collapsed false (Str.sub_ws false s) = true)
  /\ (forall s, leading_ws s = true ->
        exists r, Str.sub_ws false s = String " " r /\ leading_ws r = false)
  /\ (forall s, trailing_ws s = true ->
        exists r, Str.sub_ws false s = r +:+ " " /\ trailing_ws r = false)
  /\ (forall s, trimmed (Str.sub_ws false s) = trimmed s).
Proof.
  split; [apply normalize_column_spec|].
  split; [intros s; apply sub_ws_collapsed|].
  split; [apply sub_ws_leading|].
  split; [apply sub_ws_trailing_space|].
  intros s. unfold trimmed. by rewrite sub_ws_leading_eq, sub_ws_trailing_eq.
Qed.

Lemma pipeline_shape_witness :
  (exists r, Str.sub_ws false (String "009" "  abc") = String " " r /\ leading_ws r = false)
  /\ (exists r, Str.sub_ws false "abc   " = r +:+ " " /\ trailing_ws r = false).
Proof.
  pose proof (pipeline_shape sample_config []) as (_ & _ & Hl & Ht & _).
  split; [apply Hl | apply Ht]; reflexivity.
Defined.

(** C7, where the code departs from it: the whitespace step leaves a
    leading and a trailing space in place. *)
Lemma whitespace_step_not_trimmed :
  Str.sub_ws false (Str.translate punct_digits " abc ") = " abc "
  /\ trimmed (Str.sub_ws false (Str.translate punct_digits " abc ")) = false
  /\ normalize_column sample_config [" ABC "] = Some [" abc "].
Proof. repeat split; vm_compute; reflexivity. Qed.

(** C8, where the code departs from it: a second normalization
    changes ["apt"] when ["apt"] is itself a key of the abbreviation
    table. *)
Lemma normalization_not_idempotent :
  normalize_column chained_config ["apartments"] = Some ["apt"]
  /\ normalize_column chained_config ["apt"] = Some ["ap"]
  /\ normalize_name chained_config (normalize_name chained_config "apartments")
     <> normalize_name chained_config "apartments".
Proof. repeat split; vm_compute; (reflexivity || discriminate). Qed.

(** ** Characters *)

Lemma space_not_punct (rn : bool) : Str.contains " " (punct_of rn) = false.
Proof. by destruct rn. Qed.

Lemma lower_char_ok (rn : bool) (c : ascii) :
  Str.contains c (punct_of rn) = false ->
  Str.is_space c = false ->
  char_ok (punct_of rn) (Str.lower_char c) = true.
Proof.
  destruct rn; destruct c as [[] [] [] [] [] [] [] []];
    vm_compute; intros; congruence.
Qed.

Lemma char_ok_parts (p : string) (c : ascii) :
  char_ok p c = true ->
  Str.contains c p = false /\ Str.is_space c = false /\ Str.lower_char c = c.
Proof.
  unfold char_ok. intros H.
  apply andb_true_iff in H as [H Hl]. apply andb_true_iff in H as [Hp Hs].
  apply negb_true_iff in Hp, Hs. apply Ascii.eqb_eq in Hl. done.
Qed.

Lemma char_ok_not_space (p : string) (c : ascii) :
  char_ok p c = true -> Ascii.eqb c " " = false.
Proof.
  intros H. apply char_ok_parts in H as (_ & Hs & _).
  destruct (Ascii.eqb c " ") eqn:Hc; [|done].
  apply Ascii.eqb_eq in Hc. by subst.
Qed.

Lemma space_or_ok (p : string) (c : ascii) :
  Ascii.eqb c " " || char_ok p c = true ->
  (c = " "%char /\ Str.is_space c = true)
  \/ (Ascii.eqb c " " = false /\ char_ok p c = true).
Proof.
  destruct (Ascii.eqb c " ") eqn:Hc.
  - apply Ascii.eqb_eq in Hc. subst. by left.
  - simpl. intros H. by right.
Qed.

(** ** Names in normal form *)

Lemma first_steps_chars (rn : bool) (s : string) : forall b,
  all_chars (fun c => Ascii.eqb c " " || char_ok (punct_of rn) c)
    (Str.lower (Str.sub_ws b (Str.translate (punct_of rn) s))) = true.
Proof.
  induction s as [|c r IH]; intros b; [done|]. cbn [Str.translate].
  destruct (Str.contains c (punct_of rn)) eqn:Hp; [apply IH|].
  cbn [Str.sub_ws]. destruct (Str.is_space c) eqn:Hs.
  - destruct b; [apply IH|]. cbn [Str.lower all_chars].
    change (Str.lower_char " ") with " "%char. rewrite Ascii.eqb_refl. apply IH.
  - cbn [Str.lower all_chars]. rewrite (lower_char_ok rn c Hp Hs), orb_true_r.
    apply IH.
Qed.

Lemma first_steps_ws (rn : bool) (s : string) : forall b,
  ws_collapsed b (Str.lower (Str.sub_ws b (Str.translate (punct_of rn) s))) = true.
Proof.
  induction s as [|c r IH]; intros b; [done|]. cbn [Str.translate].
  destruct (Str.contains c (punct_of rn)) eqn:Hp; [apply IH|].
  cbn [Str.sub_ws]. destruct (Str.is_space c) eqn:Hs.
  - destruct b; [apply IH|]. cbn [Str.lower ws_collapsed].
    change (Str.lower_char " ") with " "%char.
    change (Str.is_space " ") with true. cbn. apply IH.
  - cbn [Str.lower ws_collapsed].
    destruct (char_ok_parts _ _ (lower_char_ok rn c Hp Hs)) as (_ & -> & _).
    apply IH.
Qed.

Lemma first_steps_normal (rn : bool) (s : string) :
  normal_form (punct_of rn)
    (Str.lower (Str.sub_ws false (Str.translate (punct_of rn) s))) = true.
Proof.
  unfold normal_form. by rewrite first_steps_chars, first_steps_ws.
Qed.

Lemma normal_translate (p s : string) :
  Str.contains " " p = false ->
  all_chars (fun c => Ascii.eqb c " " || char_ok p c) s = true ->
  Str.translate p s = s.
Proof.
  intros Hsp. induction s as [|c r IH]; [done|]. cbn [all_chars Str.translate].
  intros H. apply andb_true_iff in H as [Hc Hr].
  destruct (space_or_ok p c Hc) as [[-> _]|[_ Hok]].
  - rewrite Hsp. by rewrite IH.
  - apply char_ok_parts in Hok as (-> & _). by rewrite IH.
Qed.

Lemma normal_lower (p s : string) :
  all_chars (fun c => Ascii.eqb c " " || char_ok p c) s = true ->
  Str.lower s = s.
Proof.
  induction s as [|c r IH]; [done|]. cbn [all_chars Str.lower].
  intros H. apply andb_true_iff in H as [Hc Hr].
  destruct (space_or_ok p c Hc) as [[-> _]|[_ Hok]].
  - change (Str.lower_char " ") with " "%char. by rewrite IH.
  - apply char_ok_parts in Hok as (_ & _ & ->). by rewrite IH.
Qed.

Lemma collapsed_sub_ws (s : string) : forall b,
  ws_collapsed b s = true -> Str.sub_ws b s = s.
Proof.
  induction s as [|c r IH]; intros b; [done|]. cbn [ws_collapsed Str.sub_ws].
  destruct (Str.is_space c) eqn:Hs.
  - intros H. apply andb_true_iff in H as [H Hr]. apply andb_true_iff in H as [Hc Hb].
    apply Ascii.eqb_eq in Hc. subst c. destruct b; [done|]. by rewrite IH.
  - intros H. by rewrite IH.
Qed.

(** The first three steps do nothing to a name in normal form. *)
Lemma normal_form_fixed (rn : bool) (s : string) :
  normal_form (punct_of rn) s = true ->
  Str.lower (Str.sub_ws false (Str.translate (punct_of rn) s)) = s.
Proof.
  unfold normal_form. intros H. apply andb_true_iff in H as [Hc Hw].
  rewrite (normal_translate _ _ (space_not_punct rn) Hc).
  rewrite (collapsed_sub_ws _ _ Hw). by apply (normal_lower (punct_of rn)).
Qed.

(** *** Tokens of a name in normal form *)

Lemma tok_ok_nosep (p t : string) :
  tok_ok p t = true -> Str.contains " " t = false.
Proof.
  unfold tok_ok. induction t as [|c t IH]; [done|]. cbn [all_chars Str.contains].
  intros H. apply andb_true_iff in H as [Hc Ht].
  rewrite Ascii.eqb_sym, (char_ok_not_space _ _ Hc). by apply IH.
Qed.

Lemma split_tok_ok (p s : string) :
  all_chars (fun c => Ascii.eqb c " " || char_ok p c) s = true ->
  Forall (fun t => tok_ok p t = true) (Str.split " " s).
Proof.
  induction s as [|c r IH]; [by repeat constructor|]. cbn [all_chars Str.split].
  intros H. apply andb_true_iff in H as [Hc Hr]. specialize (IH Hr).
  destruct (space_or_ok p c Hc) as [[-> _]|[Hne Hok]].
  - rewrite Ascii.eqb_refl. by constructor.
  - rewrite Hne. pose proof (split_nonempty " " r) as Hn.
    destruct (Str.split " " r) as [|t ts]; [done|].
    apply Forall_cons in IH as [Ht Hts]. constructor; [|done].
    unfold tok_ok in *. cbn [all_chars]. by rewrite Hok, Ht.
Qed.

Lemma collapsed_split (s : string) :
  (ws_collapsed true s = true -> tail_ok (Str.split " " s))
  /\ (ws_collapsed false s = true -> inner_nonempty (Str.split " " s)).
Proof.
  induction s as [|c r [IHt IHf]]; [done|]. cbn [ws_collapsed Str.split].
  pose proof (split_nonempty " " r) as Hn.
  destruct (Str.is_space c) eqn:Hs.
  - split; intros H; apply andb_true_iff in H as [H Hr];
      apply andb_true_iff in H as [Hc Hb]; [done|].
    rewrite Hc. cbn [inner_nonempty]. by apply IHt.
  - assert (Ascii.eqb c " " = false) as ->.
    { destruct (Ascii.eqb c " ") eqn:Hc; [|done].
      apply Ascii.eqb_eq in Hc. by subst. }
    destruct (Str.split " " r) as [|t ts]; [done|].
    split; intros H; specialize (IHf H); cbn [inner_nonempty] in IHf.
    + cbn [tail_ok]. by destruct ts.
    + done.
Qed.

Lemma all_chars_app (f : ascii -> bool) (a b : string) :
  all_chars f (a +:+ b) = all_chars f a && all_chars f b.
Proof.
  induction a as [|c a IH]; [done|]. simpl. by rewrite IH, andb_assoc.
Qed.

Lemma all_chars_impl (f g : ascii -> bool) (s : string) :
  (forall c, f c = true -> g c = true) ->
  all_chars f s = true -> all_chars g s = true.
Proof.
  intros Hfg. induction s as [|c r IH]; [done|]. cbn [all_chars].
  intros H. apply andb_true_iff in H as [Hc Hr]. by rewrite (Hfg c Hc), IH.
Qed.

Lemma join_chars (p : string) (l : list string) :
  Forall (fun t => tok_ok p t = true) l ->
  all_chars (fun c => Ascii.eqb c " " || char_ok p c) (Str.join " " l) = true.
Proof.
  assert (forall t, tok_ok p t = true ->
            all_chars (fun c => Ascii.eqb c " " || char_ok p c) t = true) as Htok.
  { intros t. apply all_chars_impl. intros c ->. apply orb_true_r. }
  induction 1 as [|x l Hx Hl IH]; [done|].
  destruct l as [|y l]; [by apply Htok|].
  rewrite (join_cons_char " "), all_chars_app. cbn [all_chars].
  by rewrite (Htok x Hx), Ascii.eqb_refl, IH.
Qed.

Lemma collapsed_tok_app (p x rest : string) (b : bool) :
  tok_ok p x = true -> x <> EmptyString ->
  ws_collapsed b (x +:+ rest) = ws_collapsed false rest.
Proof.
  unfold tok_ok. revert b. induction x as [|c x IH]; intros b Hx Hne; [done|].
  cbn [all_chars] in Hx. apply andb_true_iff in Hx as [Hc Hx].
  apply char_ok_parts in Hc as (_ & Hs & _).
  change (ws_collapsed b (String c (x +:+ rest)) = ws_collapsed false rest).
  cbn [ws_collapsed]. rewrite Hs.
  destruct x as [|d x]; [done|]. by apply IH.
Qed.

Lemma collapsed_tok (p x : string) (b : bool) :
  tok_ok p x = true -> ws_collapsed b x = true.
Proof.
  unfold tok_ok. revert b. induction x as [|c x IH]; intros b Hx; [done|].
  cbn [all_chars] in Hx. apply andb_true_iff in Hx as [Hc Hx].
  apply char_ok_parts in Hc as (_ & Hs & _).
  cbn [ws_collapsed]. rewrite Hs. by apply IH.
Qed.

Lemma collapsed_space (b : bool) (r : string) :
  ws_collapsed b (String " " r) = negb b && ws_collapsed true r.
Proof. done. Qed.

Lemma join_collapsed_tail (p : string) (l : list string) :
  Forall (fun t => tok_ok p t = true) l ->
  tail_ok l -> ws_collapsed true (Str.join " " l) = true.
Proof.
  induction 1 as [|x l Hx Hl IH]; [done|].
  destruct l as [|y l]; [intros _; by apply (collapsed_tok p)|].
  intros [Hne Ht]. rewrite (join_cons_char " ").
  rewrite (collapsed_tok_app p) by done.
  rewrite collapsed_space. by apply IH.
Qed.

Lemma join_collapsed (p : string) (l : list string) :
  Forall (fun t => tok_ok p t = true) l ->
  inner_nonempty l -> ws_collapsed false (Str.join " " l) = true.
Proof.
  intros Hall Hin. destruct Hall as [|x l Hx Hl]; [done|].
  destruct l as [|y l]; [by apply (collapsed_tok p)|].
  cbn [inner_nonempty] in Hin. rewrite (join_cons_char " ").
  assert (ws_collapsed false (String " " (Str.join " " (y :: l))) = true) as Hrest.
  { rewrite collapsed_space. by apply (join_collapsed_tail p). }
  destruct x as [|c x]; [done|]. by rewrite (collapsed_tok_app p).
Qed.

Lemma normal_form_split (p s : string) :
  normal_form p s = true ->
  Forall (fun t => tok_ok p t = true) (Str.split " " s)
  /\ inner_nonempty (Str.split " " s).
Proof.
  unfold normal_form. intros H. apply andb_true_iff in H as [Hc Hw]. split.
  - by apply split_tok_ok.
  - by apply collapsed_split.
Qed.

Lemma normal_form_join (p : string) (l : list string) :
  Forall (fun t => tok_ok p t = true) l ->
  inner_nonempty l ->
  normal_form p (Str.join " " l) = true.
Proof.
  intros Hall Hin. unfold normal_form.
  by rewrite join_chars, (join_collapsed p).
Qed.

(** *** Token lists under [filter] and [map] *)

Lemma tail_ok_inner (l : list string) : tail_ok l -> inner_nonempty l.
Proof. destruct l as [|x [|y l]]; [done..|]. by intros [_ H]. Qed.

Lemma tail_ok_cons (x : string) (l : list string) :
  (l <> [] -> x <> EmptyString) -> tail_ok l -> tail_ok (x :: l).
Proof. destruct l; [done|]. intros Hx Hl. split; [by apply Hx | done]. Qed.

Lemma tail_ok_filter (P : string -> Prop) `{!forall x, Decision (P x)} (l : list string) :
  tail_ok l -> tail_ok (filter P l).
Proof.
  induction l as [|x l IH]; [done|]. intros Hok.
  assert (tail_ok l) as Hl by (destruct l; [done | by destruct Hok]).
  rewrite filter_cons. destruct (decide (P x)); [|by apply IH].
  apply tail_ok_cons; [|by apply IH].
  intros Hne. destruct l as [|y l]; [done | by destruct Hok].
Qed.

Lemma inner_nonempty_filter (P : string -> Prop) `{!forall x, Decision (P x)}
    (l : list string) :
  inner_nonempty l -> inner_nonempty (filter P l).
Proof.
  destruct l as [|x l]; [done|]. cbn [inner_nonempty]. intros Hok.
  rewrite filter_cons. destruct (decide (P x)).
  - cbn [inner_nonempty]. by apply tail_ok_filter.
  - by apply tail_ok_inner, tail_ok_filter.
Qed.

Lemma tail_ok_map (f : string -> string) (l : list string) :
  (forall t, t <> EmptyString -> f t <> EmptyString) ->
  tail_ok l -> tail_ok (map f l).
Proof.
  intros Hf. induction l as [|x l IH]; [done|].
  destruct l as [|y l]; [done|]. intros [Hx Hl].
  split; [by apply Hf | by apply IH].
Qed.

Lemma inner_nonempty_map (f : string -> string) (l : list string) :
  (forall t, t <> EmptyString -> f t <> EmptyString) ->
  inner_nonempty l -> inner_nonempty (map f l).
Proof. intros Hf. destruct l; [done|]. by apply tail_ok_map. Qed.

Lemma filter_all (P : string -> Prop) `{!forall x, Decision (P x)} (l : list string) :
  Forall P l -> filter P l = l.
Proof.
  induction 1 as [|x l Hx Hl IH]; [done|].
  by rewrite filter_cons, decide_True, IH.
Qed.

Lemma tokens_nosep (p : string) (l : list string) :
  Forall (fun t => tok_ok p t = true) l ->
  Forall (fun t => Str.contains " " t = false) l.
Proof. intros H. eapply Forall_impl; [exact H|]. intros t. apply tok_ok_nosep. Qed.

(** *** The stopword step *)

Lemma remove_stopwords_normal (p s : string) :
  normal_form p s = true -> normal_form p (remove_stopwords s) = true.
Proof.
  intros H. apply normal_form_split in H as [Htok Hin].
  unfold remove_stopwords. apply normal_form_join.
  - apply Forall_forall. intros t Ht. apply list_elem_of_filter in Ht as [_ Ht].
    by eapply Forall_forall in Htok.
  - by apply inner_nonempty_filter.
Qed.

Lemma remove_stopwords_nostop (p s : string) :
  normal_form p s = true -> nostop (remove_stopwords s).
Proof.
  intros H. apply normal_form_split in H as [Htok _].
  unfold nostop, remove_stopwords.
  set (F := filter (fun item => item ∉ stopwords) (Str.split " " s)).
  assert (Forall (fun t => t ∉ stopwords) F) as Hns.
  { apply Forall_forall. intros t Ht. by apply list_elem_of_filter in Ht as [Ht _]. }
  rewrite split_join_cases.
  - destruct F; [|done]. constructor; [|done].
    apply (bool_decide_unpack _). by vm_compute.
  - apply (tokens_nosep p). apply Forall_forall. intros t Ht.
    apply list_elem_of_filter in Ht as [_ Ht]. by eapply Forall_forall in Htok.
Qed.

Lemma nostop_fixed (s : string) : nostop s -> remove_stopwords s = s.
Proof.
  unfold nostop, remove_stopwords. intros H.
  rewrite filter_all by done. apply (join_split " ").
Qed.

(** *** The abbreviation step *)

Lemma value_ok_parts (p : string) (stop : bool) (abbr : gmap string string) (v : string) :
  value_ok p stop abbr v = true ->
  v <> EmptyString /\ tok_ok p v = true /\ abbr !! v = None
  /\ (stop = true -> v ∉ stopwords) /\ Str.contains "|" v = false.
Proof.
  unfold value_ok. intros H.
  apply andb_true_iff in H as [H Hs]. apply andb_true_iff in H as [H Hk].
  apply andb_true_iff in H as [H Hb]. apply negb_true_iff in Hb.
  apply andb_true_iff in H as [Hne Ht]. apply bool_decide_eq_true in Hk.
  repeat split; try done.
  - intros ->. done.
  - intros ->. simpl in Hs. by apply bool_decide_eq_true in Hs.
Qed.

Lemma abbr_ok_values (cfg : Config) (abbr : gmap string string) :
  abbr_ok cfg = true -> abbreviations cfg = Some abbr ->
  vals_ok (punct_of (remove_numbers cfg)) (truthy_list (cfg_stopwords cfg)) abbr.
Proof.
  unfold abbr_ok. intros H Habbr k v Hkv. rewrite Habbr in H.
  rewrite forallb_forall in H.
  apply (H (k, v)). apply list_elem_of_In. by apply elem_of_map_to_list.
Qed.

Section Abbreviate.

Variable p : string.
Variable stop : bool.
Variable abbr : gmap string string.
Hypothesis values : vals_ok p stop abbr.

Abbreviation ab := (fun item : string => match abbr !! item with Some a => a | None => item end).

Lemma ab_tok_ok (t : string) : tok_ok p t = true -> tok_ok p (ab t) = true.
Proof.
  intros Ht. cbv beta. destruct (abbr !! t) as [v|] eqn:Hl; [|done].
  by apply values, value_ok_parts in Hl as (_ & ? & _).
Qed.

Lemma ab_nonempty (t : string) : t <> EmptyString -> ab t <> EmptyString.
Proof.
  intros Ht. cbv beta. destruct (abbr !! t) as [v|] eqn:Hl; [|done].
  by apply values, value_ok_parts in Hl as (? & _).
Qed.

Lemma ab_nokey (t : string) : abbr !! ab t = None.
Proof.
  cbv beta. destruct (abbr !! t) as [v|] eqn:Hl; [|done].
  by apply values, value_ok_parts in Hl as (_ & _ & ? & _).
Qed.

Lemma ab_nostop (t : string) : stop = true -> t ∉ stopwords -> ab t ∉ stopwords.
Proof.
  intros Hs Ht. cbv beta. destruct (abbr !! t) as [v|] eqn:Hl; [|done].
  apply values, value_ok_parts in Hl as (_ & _ & _ & Hv & _). by apply Hv.
Qed.

Lemma abbreviate_normal (s : string) :
  normal_form p s = true -> normal_form p (abbreviate abbr s) = true.
Proof.
  intros H. apply normal_form_split in H as [Htok Hin].
  unfold abbreviate. apply normal_form_join.
  - apply Forall_map. eapply Forall_impl; [exact Htok|]. apply ab_tok_ok.
  - apply inner_nonempty_map; [apply ab_nonempty | done].
Qed.

Lemma abbreviate_split (s : string) :
  normal_form p s = true ->
  Str.split " " (abbreviate abbr s) = map ab (Str.split " " s).
Proof.
  intros H. apply normal_form_split in H as [Htok _].
  unfold abbreviate. apply (split_join " ").
  - pose proof (split_nonempty " " s). by destruct (Str.split " " s).
  - apply (tokens_nosep p), Forall_map.
    eapply Forall_impl; [exact Htok|]. apply ab_tok_ok.
Qed.

Lemma abbreviate_nokey (s : string) :
  normal_form p s = true -> nokey abbr (abbreviate abbr s).
Proof.
  intros H. unfold nokey. rewrite abbreviate_split by done.
  apply Forall_map, Forall_forall. intros t _. apply ab_nokey.
Qed.

Lemma abbreviate_nostop (s : string) :
  stop = true -> normal_form p s = true -> nostop s -> nostop (abbreviate abbr s).
Proof.
  intros Hs H Hns. unfold nostop. rewrite abbreviate_split by done.
  apply Forall_map. eapply Forall_impl; [exact Hns|].
  intros t. by apply ab_nostop.
Qed.

End Abbreviate.

Lemma nokey_fixed (abbr : gmap string string) (s : string) :
  nokey abbr s -> abbreviate abbr s = s.
Proof.
  unfold nokey, abbreviate. intros H.
  rewrite <- (join_split " " s) at 2. f_equal.
  induction H as [|t l Ht Hl IH]; [done|]. cbn [map]. by rewrite Ht, IH.
Qed.

(** ** Normalizing twice *)

Lemma stop_step_normal (cfg : Config) (p s : string) :
  normal_form p s = true -> normal_form p (stop_step cfg s) = true.
Proof.
  intros H. unfold stop_step. destruct (truthy_list _); [|done].
  by apply remove_stopwords_normal.
Qed.

Lemma stop_step_nostop (cfg : Config) (p s : string) :
  normal_form p s = true ->
  truthy_list (cfg_stopwords cfg) = true -> nostop (stop_step cfg s).
Proof.
  intros H Hs. unfold stop_step. rewrite Hs. by apply (remove_stopwords_nostop p).
Qed.

Lemma stop_step_fixed (cfg : Config) (s : string) :
  (truthy_list (cfg_stopwords cfg) = true -> nostop s) -> stop_step cfg s = s.
Proof.
  intros H. unfold stop_step. destruct (truthy_list _); [|done].
  by apply nostop_fixed, H.
Qed.

Lemma abbr_step_normal (cfg : Config) (s : string) :
  abbr_ok cfg = true ->
  normal_form (punct_of (remove_numbers cfg)) s = true ->
  normal_form (punct_of (remove_numbers cfg)) (abbr_step cfg s) = true.
Proof.
  intros Hok H. unfold abbr_step.
  destruct (abbreviations cfg) as [abbr|] eqn:Ha; [|done].
  destruct (truthy_dict (Some abbr)); [|done].
  eapply abbreviate_normal; [by apply abbr_ok_values | done].
Qed.

Lemma abbr_step_nostop (cfg : Config) (s : string) :
  abbr_ok cfg = true ->
  normal_form (punct_of (remove_numbers cfg)) s = true ->
  truthy_list (cfg_stopwords cfg) = true ->
  nostop s -> nostop (abbr_step cfg s).
Proof.
  intros Hok H Hs Hns. unfold abbr_step.
  destruct (abbreviations cfg) as [abbr|] eqn:Ha; [|done].
  destruct (truthy_dict (Some abbr)); [|done].
  eapply abbreviate_nostop; [by apply abbr_ok_values | done..].
Qed.

Lemma abbr_step_twice (cfg : Config) (s : string) :
  abbr_ok cfg = true ->
  normal_form (punct_of (remove_numbers cfg)) s = true ->
  abbr_step cfg (abbr_step cfg s) = abbr_step cfg s.
Proof.
  intros Hok H. unfold abbr_step.
  destruct (abbreviations cfg) as [abbr|] eqn:Ha; [|done].
  destruct (truthy_dict (Some abbr)); [|done].
  apply nokey_fixed. eapply abbreviate_nokey; [by apply abbr_ok_values | done].
Qed.

(** *** The joining character stays out *)

Lemma contains_app (c : ascii) (a b : string) :
  Str.contains c (a +:+ b) = Str.contains c a || Str.contains c b.
Proof.
  induction a as [|d a IH]; [done|]. simpl. by destruct (Ascii.eqb c d).
Qed.

Lemma sub_ws_keeps_bar (s : string) : forall b,
  Str.contains "|" s = false -> Str.contains "|" (Str.sub_ws b s) = false.
Proof.
  induction s as [|c r IH]; intros b; [done|]. cbn [Str.contains Str.sub_ws].
  destruct (Ascii.eqb "|" c) eqn:Hc; [done|]. intros H.
  destruct (Str.is_space c); [destruct b|]; cbn [Str.contains];
    rewrite ?Hc; by apply IH.
Qed.

Lemma lower_char_bar (c : ascii) :
  Ascii.eqb "|" c = false -> Ascii.eqb "|" (Str.lower_char c) = false.
Proof. destruct c as [[] [] [] [] [] [] [] []]; vm_compute; congruence. Qed.

Lemma lower_keeps_bar (s : string) :
  Str.contains "|" s = false -> Str.contains "|" (Str.lower s) = false.
Proof.
  induction s as [|c r IH]; [done|]. cbn [Str.contains Str.lower].
  destruct (Ascii.eqb "|" c) eqn:Hc; [done|]. intros H.
  rewrite (lower_char_bar c Hc). by apply IH.
Qed.

Lemma join_keeps_out (c : ascii) (sep : string) (l : list string) :
  Str.contains c sep = false ->
  Forall (fun x => Str.contains c x = false) l ->
  Str.contains c (Str.join sep l) = false.
Proof.
  intros Hsep. induction 1 as [|x l Hx Hl IH]; [done|].
  destruct l as [|y l]; [done|].
  by rewrite join_cons, !contains_app, Hx, Hsep, IH.
Qed.

Lemma split_keeps_out (c sep : ascii) (s : string) :
  Str.contains c s = false ->
  Forall (fun x => Str.contains c x = false) (Str.split sep s).
Proof.
  induction s as [|d r IH]; [by repeat constructor|]. cbn [Str.contains Str.split].
  destruct (Ascii.eqb c d) eqn:Hc; [done|]. intros H. specialize (IH H).
  destruct (Ascii.eqb d sep); [by constructor|].
  pose proof (split_nonempty sep r) as Hne.
  destruct (Str.split sep r) as [|t ts]; [done|].
  apply Forall_cons in IH as [Ht Hts]. constructor; [|done].
  cbn [Str.contains]. by rewrite Hc.
Qed.

Lemma stop_step_keeps_bar (cfg : Config) (s : string) :
  Str.contains "|" s = false -> Str.contains "|" (stop_step cfg s) = false.
Proof.
  intros H. unfold stop_step. destruct (truthy_list _); [|done].
  unfold remove_stopwords. apply join_keeps_out; [done|].
  apply Forall_forall. intros t Ht. apply list_elem_of_filter in Ht as [_ Ht].
  pose proof (split_keeps_out "|" " " s H) as Hs.
  by eapply Forall_forall in Hs.
Qed.

Lemma abbr_step_keeps_bar (cfg : Config) (s : string) :
  abbr_ok cfg = true ->
  Str.contains "|" s = false -> Str.contains "|" (abbr_step cfg s) = false.
Proof.
  intros Hok H. unfold abbr_step.
  destruct (abbreviations cfg) as [abbr|] eqn:Ha; [|done].
  destruct (truthy_dict (Some abbr)); [|done].
  unfold abbreviate. apply join_keeps_out; [done|].
  apply Forall_map. eapply Forall_impl; [apply (split_keeps_out "|" " " s H)|].
  intros t Ht. cbv beta. destruct (abbr !! t) as [v|] eqn:Hl; [|done].
  by apply (abbr_ok_values cfg abbr Hok Ha), value_ok_parts in Hl as (_ & _ & _ & _ & ?).
Qed.

Lemma normalize_name_keeps_bar (cfg : Config) (name : string) :
  abbr_ok cfg = true ->
  Str.contains "|" name = false ->
  Str.contains "|" (normalize_name cfg name) = false.
Proof.
  intros Hok H. unfold normalize_name.
  by apply abbr_step_keeps_bar, stop_step_keeps_bar, lower_keeps_bar,
    sub_ws_keeps_bar, translate_keeps_out.
Qed.

Lemma normalize_name_twice (cfg : Config) (name : string) :
  abbr_ok cfg = true ->
  normalize_name cfg (normalize_name cfg name) = normalize_name cfg name.
Proof.
  intros Hok.
  set (p := punct_of (remove_numbers cfg)).
  set (s1 := Str.lower (Str.sub_ws false (Str.translate p name))).
  set (s2 := stop_step cfg s1).
  set (o := abbr_step cfg s2).
  change (normalize_name cfg name) with o.
  assert (normal_form p s1 = true) as H1 by apply first_steps_normal.
  assert (normal_form p s2 = true) as H2 by (by apply stop_step_normal).
  assert (normal_form p o = true) as H3 by (by apply abbr_step_normal).
  assert (truthy_list (cfg_stopwords cfg) = true -> nostop o) as Hns.
  { intros Hs. apply abbr_step_nostop; try done. by apply (stop_step_nostop cfg p). }
  change (normalize_name cfg o)
    with (abbr_step cfg (stop_step cfg
            (Str.lower (Str.sub_ws false (Str.translate p o))))).
  unfold p. rewrite (normal_form_fixed (remove_numbers cfg) o H3).
  rewrite (stop_step_fixed cfg o Hns).
  by apply abbr_step_twice.
Qed.

(** C8, as the code has it: for either [remove_numbers] flag and any
    stopword setting, when every value of the abbreviation table is a
    non-empty token without deleted, whitespace, capital or ['|']
    characters that is no key of the table and (with stopwords removed)
    no stopword, normalizing a normalized name gives it back, name by
    name and on every column the normalizer returns. *)
Theorem normalize_idempotent (cfg : Config) :
  abbr_ok cfg = true ->
  (forall name,
     normalize_name cfg (normalize_name cfg name) = normalize_name cfg name)
  /\ (forall names out,
        normalize_column cfg names = Some out ->
        normalize_column cfg out = Some out).
Proof.
  intros Hok. split; [intros name; by apply normalize_name_twice|].
  intros names out. rewrite !normalize_column_spec.
  destruct (column_ok names) eqn:Hc; [|done]. intros [= <-].
  apply column_ok_spec in Hc.
  assert (Forall (fun n => Str.contains "|" n = false) (grown names)) as Hbar.
  { destruct names; [by repeat constructor | done]. }
  assert (column_ok (map (normalize_name cfg) (grown names)) = true) as ->.
  { apply column_ok_spec.
    apply Forall_map. eapply Forall_impl; [exact Hbar|].
    intros n Hn. by apply normalize_name_keeps_bar. }
  assert (grown (map (normalize_name cfg) (grown names))
          = map (normalize_name cfg) (grown names)) as -> by (by destruct names).
  f_equal. rewrite map_map. apply map_ext. intros n.
  by apply normalize_name_twice.
Qed.

Lemma normalize_idempotent_witness :
  abbr_ok test_a_config = true
  /\ normalize_name test_a_config
       (normalize_name test_a_config "  Acme   Property Management, Inc. No.5 ")
     = normalize_name test_a_config "  Acme   Property Management, Inc. No.5 ".
Proof.
  split; [vm_compute; reflexivity|].
  apply (normalize_idempotent test_a_config). vm_compute. reflexivity.
Defined.

(** ** How a run ends *)

Lemma load_names (n : nat) (t : list Row) :
  names_of (load n t) = map party_name (take n t).
Proof.
  unfold names_of. rewrite <- (load_rows n t). by rewrite map_map.
Qed.

Lemma load_nil (n : nat) (t : list Row) : load n t = [] <-> take n t = [].
Proof.
  pose proof (load_rows n t) as H.
  split; intros Hnil; rewrite Hnil in H.
  - by rewrite <- H.
  - by destruct (load n t).
Qed.

Lemma column_ok_rows (rows : list Row) :
  column_ok (map party_name rows) = true
  <-> forall r, r ∈ rows -> Str.contains "|" (party_name r) = false.
Proof. by rewrite column_ok_spec, Forall_map, Forall_forall. Qed.

(** A run returns on the non-empty slices none of whose names holds
    a ['|']. *)
Lemma run_returns (smr : string -> string -> Q) (fr : string -> string -> Z)
    (cfg : Config) (loaded_data : list Row) :
  (exists res, run smr fr cfg loaded_data = Returns res)
  <-> take (size cfg) loaded_data <> []
      /\ column_ok (map party_name (take (size cfg) loaded_data)) = true.
Proof.
  unfold run. rewrite load_names, normalize_column_spec.
  pose proof (load_nil (size cfg) loaded_data) as Hnil.
  destruct (column_ok _).
  - destruct (load (size cfg) loaded_data) as [|ir0 d0].
    + split; [by intros [res ?]|]. intros [Hne _]. destruct Hne. by apply Hnil.
    + split; [|intros _; by eexists]. intros _. split; [|done].
      intros Ht. by apply Hnil in Ht.
  - split; [by intros [res ?] | by intros [_ ?]].
Qed.

Lemma run_unfold (smr : string -> string -> Q) (fr : string -> string -> Z)
    (cfg : Config) (loaded_data : list Row) (res : Result) :
  run smr fr cfg loaded_data = Returns res ->
  let rows := take (size cfg) loaded_data in
  let names := map (fun r => normalize_name cfg (party_name r)) rows in
  column_ok (map party_name rows) = true
  /\ length names = length (load (size cfg) loaded_data)
  /\ data res = add_position (exact_merge (set_names (load (size cfg) loaded_data) names)).
Proof.
  intros Hrun rows names.
  destruct (proj1 (run_returns smr fr cfg loaded_data) (ex_intro _ res Hrun)) as [Hne Hok].
  fold rows in Hne, Hok.
  unfold run in Hrun. rewrite load_names, normalize_column_spec in Hrun.
  fold rows in Hrun. rewrite Hok in Hrun.
  assert (grown (map party_name rows) = map party_name rows) as Hg by (by destruct rows).
  rewrite Hg, map_map in Hrun. fold names in Hrun.
  destruct (load (size cfg) loaded_data) as [|ir0 d0] eqn:Hl; [done|].
  injection Hrun as <-. cbn [data]. split; [done|]. split; [|done].
  unfold names, rows. rewrite length_map.
  rewrite <- (load_rows (size cfg) loaded_data), Hl. by rewrite length_map.
Qed.

(** ** The count mass of a run *)

Lemma group_counts_set_names (g : Row -> string) (n : string) (rows : list Row) :
  forall idx : list nat,
  length idx = length rows ->
  group_counts (set_names (zip idx rows) (map g rows)) n
  = map party_count (filter (fun r => g r = n) rows).
Proof.
  induction rows as [|r rows IH]; intros [|i idx] Hlen; try done.
  change (set_names (zip (i :: idx) (r :: rows)) (map g (r :: rows)))
    with ((i, set_party_name r (g r)) :: set_names (zip idx rows) (map g rows)).
  simpl in Hlen. rewrite filter_cons. destruct (decide (g r = n)) as [Heq|Hne].
  - rewrite <- Heq at 1.
    rewrite (group_counts_cons_eq (i, set_party_name r (g r))).
    unfold rname, rcount. cbn [snd party_name party_count set_party_name map].
    rewrite Heq. f_equal. apply IH. lia.
  - rewrite group_counts_cons_ne by done. apply IH. lia.
Qed.

Lemma group_total_set_names (g : Row -> string) (n : string) (rows : list Row)
    (idx : list nat) :
  length idx = length rows ->
  group_total (set_names (zip idx rows) (map g rows)) n
  = total party_count (filter (fun r => g r = n) rows).
Proof.
  intros Hlen. unfold group_total.
  by rewrite group_counts_set_names, total_map.
Qed.

Lemma total_filter_bounds {A} (f : A -> Z) (P : A -> Prop) `{!forall x, Decision (P x)}
    (l : list A) :
  Forall (fun x => 0 <= f x) l ->
  0 <= total f (filter P l) <= total f l.
Proof.
  induction 1 as [|x l Hx Hl IH]; [done|].
  rewrite filter_cons. destruct (decide (P x)); rewrite !total_cons; lia.
Qed.

Lemma total_elem_bound {A} (f : A -> Z) (l : list A) (x : A) :
  Forall (fun x => 0 <= f x) l -> x ∈ l -> f x <= total f l.
Proof.
  induction 1 as [|y l Hy Hl IH]; intros Hx; [by apply elem_of_nil in Hx|].
  assert (0 <= total f l) as Hpos.
  { clear IH Hx. induction Hl as [|z l Hz _ IH]; [done|]. rewrite total_cons. lia. }
  rewrite total_cons. apply elem_of_cons in Hx as [->|Hx]; [lia|].
  specialize (IH Hx). lia.
Qed.

(** Counts that are not negative and add up to an [int64] are [int64]
    cells and overflow in no group. *)
Lemma no_overflow_nonneg (cfg : Config) (rows : list Row) :
  Forall (fun r => 0 <= party_count r) rows ->
  total party_count rows <= int64_max ->
  int64_cells rows /\ no_overflow cfg rows.
Proof.
  intros Hpos Hmax. split.
  - apply Forall_forall. intros r Hr.
    pose proof (total_elem_bound party_count rows r Hpos Hr) as Hb.
    pose proof (proj1 (Forall_forall _ _) Hpos r Hr) as Hr0. cbv beta in Hr0.
    unfold in_int64, int64_min. lia.
  - intros n.
    pose proof (total_filter_bounds party_count
                  (fun r => normalize_name cfg (party_name r) = n) rows Hpos) as Hb.
    unfold in_int64, int64_min. lia.
Qed.

(** C1, as the code has it: on every run that returns, the cluster
    loop hands the count mass of the working frame on unchanged; the
    exact-merge pass adds the [int64] cells of a group in [int64]
    arithmetic, so the mass of the working frame is that of the
    processed input rows (the first [size] rows of the table) up to a
    multiple of 2^64, and it is exactly that mass, and so is the sum of
    the [party_count] column of the output, when no group of rows with
    the same normalized name has counts adding up outside the [int64]
    range. *)
Theorem count_conservation (smr : string -> string -> Q) (fr : string -> string -> Z)
    (cfg : Config) (loaded_data : list Row) (res : Result) :
  run smr fr cfg loaded_data = Returns res ->
  let rows := take (size cfg) loaded_data in
  total c_party_count (output_df res) = total pcount (data res)
  /\ (int64_cells rows ->
      (total pcount (data res) - total party_count rows) mod int64_modulus = 0)
  /\ (int64_cells rows -> no_overflow cfg rows ->
      total pcount (data res) = total party_count rows
      /\ total c_party_count (output_df res) = total party_count rows).
Proof.
  intros Hrun rows.
  destruct (run_frame _ _ _ _ _ Hrun) as (Hidx & Hnm & Hout & _).
  destruct (build_books smr fr (algorithm cfg) (data res) Hidx Hnm)
    as (_ & _ & _ & _ & Hcnt & _).
  rewrite <- Hout in Hcnt.
  destruct (run_unfold _ _ _ _ _ Hrun) as (_ & Hlen & Hdata). fold rows in Hlen, Hdata.
  set (names := map (fun r => normalize_name cfg (party_name r)) rows) in *.
  set (d := set_names (load (size cfg) loaded_data) names) in *.
  assert (total rcount d = total party_count rows) as Hd.
  { unfold d. rewrite set_names_total by done.
    unfold rows. rewrite <- (load_rows (size cfg) loaded_data).
    unfold rcount. by rewrite total_map. }
  assert (total pcount (data res) = total rcount (exact_merge d)) as Hp
    by (rewrite Hdata; apply add_position_total).
  split; [done|]. split.
  - intros _. destruct (exact_merge_total_mod d) as [k Hk].
    apply (multiple_mod _ _ k). by rewrite Hp, Hk, Hd.
  - intros _ Hno.
    assert (total pcount (data res) = total party_count rows) as Hmass.
    { rewrite Hp, exact_merge_total, Hd; [done|]. intros n.
      unfold d, load, names. fold rows.
      rewrite group_total_set_names by (by rewrite length_seq). apply Hno. }
    split; [done|]. by rewrite Hcnt.
Qed.

(** C1, where the code departs from it: two rows of the same
    normalized name whose counts, 2^62 each, are [int64] cells; the
    input counts add up to 2^63, the single cluster of the output
    carries -2^63. *)
Lemma count_sum_wraps :
  let table := [mkRow "Acme" "plaintiff" "1 Main St" "eviction" 2020 4611686018427387904;
                mkRow "ACME" "defendant" "2 Main St" "debt" 2021 4611686018427387904] in
  let cfg := mkConfig None None 10000 "seq" true in
  int64_cells table
  /\ total party_count (take (size cfg) table) = 9223372036854775808
  /\ exists res,
       run sample_ratio fuzz_ratio_indel cfg table = Returns res
       /\ map c_party_name (output_df res) = ["acme"]
       /\ total c_party_count (output_df res) = -9223372036854775808.
Proof.
  cbv zeta. split.
  { repeat (apply Forall_cons; split;
            [unfold in_int64, int64_min, int64_max; simpl; lia|]).
    by apply Forall_nil. }
  split; [vm_compute; reflexivity|].
  eexists. split; [vm_compute; reflexivity|]. split; vm_compute; reflexivity.
Qed.

Lemma count_conservation_witness :
  exists res,
    run sample_ratio fuzz_ratio_indel sample_config sample_table = Returns res
    /\ int64_cells (take (size sample_config) sample_table)
    /\ no_overflow sample_config (take (size sample_config) sample_table)
    /\ total c_party_count (output_df res)
       = total party_count (take (size sample_config) sample_table).
Proof.
  assert (int64_cells (take (size sample_config) sample_table)
          /\ no_overflow sample_config (take (size sample_config) sample_table))
    as [Hcells Hno].
  { apply no_overflow_nonneg; [|vm_compute; discriminate].
    repeat (apply Forall_cons; split; [simpl; lia|]). by apply Forall_nil. }
  eexists. split; [vm_compute; reflexivity|]. split; [exact Hcells|]. split; [exact Hno|].
  apply (count_conservation sample_ratio fuzz_ratio_indel sample_config sample_table _
           ltac:(vm_compute; reflexivity)); [exact Hcells | exact Hno].
Defined.

(** ** Further properties of the constructor *)

(** X1. On a table whose names are all present, the constructor raises
    exactly when a name of the processed slice [loaded_data[:size]]
    holds the character ['|'] that [remove_punc_num] joins the names
    with.  On an empty slice it does not raise: the assignment in
    [remove_punc_num] gives the frame one row, named as [''] is
    normalized, and the constructor goes on with it.  On a non-empty
    slice without ['|'] it returns. *)
Theorem constructor_raises_iff (smr : string -> string -> Q) (fr : string -> string -> Z)
    (cfg : Config) (loaded_data : list Row) :
  (run smr fr cfg loaded_data = Raises
   <-> exists r, r ∈ take (size cfg) loaded_data
                 /\ Str.contains "|" (party_name r) = true)
  /\ (take (size cfg) loaded_data = [] ->
      run smr fr cfg loaded_data = MissingRows [normalize_name cfg EmptyString])
  /\ (take (size cfg) loaded_data <> [] ->
      (forall r, r ∈ take (size cfg) loaded_data ->
         Str.contains "|" (party_name r) = false) ->
      exists res, run smr fr cfg loaded_data = Returns res).
Proof.
  pose proof (column_ok_rows (take (size cfg) loaded_data)) as Hcol.
  pose proof (load_nil (size cfg) loaded_data) as Hnil.
  split; [|split].
  - unfold run. rewrite load_names, normalize_column_spec.
    destruct (column_ok _) eqn:Hc.
    + split; [by destruct (load (size cfg) loaded_data)|].
      intros (r & Hr & Hbar). rewrite (proj1 Hcol eq_refl r Hr) in Hbar. done.
    + split; [intros _ | done].
      destruct (decide (Forall (fun r => Str.contains "|" (party_name r) = false)
                          (take (size cfg) loaded_data))) as [Hall|Hex].
      * assert (false = true) as Habs; [|done].
        apply Hcol. by apply Forall_forall.
      * apply not_Forall_Exists in Hex; [|intros x; apply _].
        apply Exists_exists in Hex as (r & Hr & Hbar).
        exists r. split; [done|]. cbv beta in Hbar.
        destruct (Str.contains "|" (party_name r)) eqn:E; [done | exfalso; by apply Hbar].
  - intros Ht. unfold run. rewrite load_names, normalize_column_spec, Ht.
    by rewrite (proj2 Hnil Ht).
  - intros Hne Hall. apply run_returns. split; [done|]. by apply Hcol.
Qed.

Lemma constructor_raises_iff_witness :
  run sample_ratio fuzz_ratio_indel sample_config [] = MissingRows [EmptyString]
  /\ run sample_ratio fuzz_ratio_indel sample_config
       [mkRow "a|b" "defendant" "3 Oak Ave" "eviction" 2018 1] = Raises.
Proof.
  pose proof (constructor_raises_iff sample_ratio fuzz_ratio_indel sample_config [])
    as (_ & Hempty & _).
  pose proof (constructor_raises_iff sample_ratio fuzz_ratio_indel sample_config
                [mkRow "a|b" "defendant" "3 Oak Ave" "eviction" 2018 1])
    as (Hraise & _).
  split; [by apply Hempty|].
  apply Hraise. eexists. split; [apply elem_of_cons; by left | reflexivity].
Defined.

(** X2. Rows beyond the first [size] never influence the result: the
    run on a table is the run on its first [size] rows. *)
Theorem rows_beyond_size_ignored (smr : string -> string -> Q) (fr : string -> string -> Z)
    (cfg : Config) (loaded_data : list Row) :
  run smr fr cfg loaded_data = run smr fr cfg (take (size cfg) loaded_data).
Proof.
  unfold run, load. by rewrite take_take, Nat.min_id.
Qed.

(** X3. [remove_stopwords] on any name leaves no token of the global
    stopword list, and applying it again changes nothing. *)
Theorem remove_stopwords_idempotent (s : string) :
  Forall (fun t => t ∉ stopwords) (Str.split " " (remove_stopwords s))
  /\ remove_stopwords (remove_stopwords s) = remove_stopwords s.
Proof.
  assert (nostop (remove_stopwords s)) as Hns.
  { unfold nostop, remove_stopwords.
    set (F := filter (fun item => item ∉ stopwords) (Str.split " " s)).
    assert (Forall (fun t => t ∉ stopwords) F) as HF.
    { apply Forall_forall. intros t Ht. by apply list_elem_of_filter in Ht as [Ht _]. }
    rewrite split_join_cases.
    - destruct F; [|done]. constructor; [|done].
      apply (bool_decide_unpack _). by vm_compute.
    - apply Forall_forall. intros t Ht. apply list_elem_of_filter in Ht as [_ Ht].
      pose proof (split_pieces " " s) as Hp. by eapply Forall_forall in Hp. }
  split; [exact Hns | by apply nostop_fixed].
Qed.

(** X4. The blocking key is additive over concatenation, so two names
    made of the same pieces in another order share their position. *)
Theorem word_position_additive (a b : string) :
  word_position (a +:+ b) = word_position a + word_position b
  /\ word_position (a +:+ b) = word_position (b +:+ a).
Proof.
  assert (forall x y, word_position (x +:+ y) = word_position x + word_position y) as Hadd.
  { intros x y. induction x as [|c x IH]; [done|].
    change (String c x +:+ y) with (String c (x +:+ y)).
    destruct (word_position_sum (String c (x +:+ y))) as [_ H1].
    destruct (word_position_sum (String c x)) as [_ H2].
    rewrite H1, H2, IH. lia. }
  split; [apply Hadd|]. rewrite !Hadd. lia.
Qed.

(** X5. The candidate window of an anchor of negative position is
    empty, and an anchor of non-negative position that belongs to the
    frame is in its own window; any row in a window has a non-negative
    position. *)
Theorem window_edges (frame : list PRow) (anchor : PRow) :
  (position anchor < 0 -> test_set frame anchor = [])
  /\ (0 <= position anchor -> anchor ∈ frame -> anchor ∈ test_set frame anchor)
  /\ (forall r, r ∈ test_set frame anchor -> 0 <= position anchor /\ 0 <= position r).
Proof.
  assert (forall r, r ∈ test_set frame anchor -> 0 <= position anchor /\ 0 <= position r)
    as Hin.
  { intros r Hr. unfold test_set in Hr. apply list_elem_of_filter in Hr as [Hw _].
    unfold in_window in Hw. apply andb_true_iff in Hw as [H1 H2].
    apply Z.leb_le in H1. apply Z.geb_le in H2. lia. }
  split; [|split; [|exact Hin]].
  - intros Hneg. destruct (test_set frame anchor) as [|r l] eqn:Ht; [done|].
    destruct (Hin r); [apply elem_of_cons; by left | lia].
  - intros Hpos Hfr. unfold test_set. apply list_elem_of_filter. split; [|done].
    unfold in_window. apply andb_true_iff. split.
    + apply Z.leb_le. lia.
    + apply Z.geb_le. lia.
Qed.

Lemma window_edges_witness :
  test_set [mkPRow 0 (mkRow (String "001" EmptyString) "d" "x" "e" 2020 1) (-30)]
           (mkPRow 0 (mkRow (String "001" EmptyString) "d" "x" "e" 2020 1) (-30)) = []
  /\ word_position (String "001" EmptyString) = -30.
Proof.
  split; [|reflexivity].
  apply (window_edges
           [mkPRow 0 (mkRow (String "001" EmptyString) "d" "x" "e" 2020 1) (-30)]
           (mkPRow 0 (mkRow (String "001" EmptyString) "d" "x" "e" 2020 1) (-30))).
  vm_compute. reflexivity.
Defined.

(** ** What a run leaves in its clusters *)

Lemma add_position_well (d : Frame) : well_positioned (add_position d).
Proof.
  unfold well_positioned, add_position. apply Forall_map, Forall_forall. by intros.
Qed.

Lemma append_new_Forall `{EqDecision A} (P : A -> Prop) (x : A) (l : list A) :
  P x -> Forall P l -> Forall P (append_new x l).
Proof.
  intros Hx Hl. unfold append_new. destruct (decide (x ∈ l)); [done|].
  apply Forall_app. split; [done|]. by apply Forall_singleton.
Qed.

Section ClusterContents.

Variable SequenceMatcher_ratio : string -> string -> Q.
Variable fuzz_ratio : string -> string -> Z.
Variable alg : string.
Variable frame : list PRow.

Abbreviation mstep2 := (merge_step SequenceMatcher_ratio fuzz_ratio alg).
Abbreviation cstep2 := (cluster_step SequenceMatcher_ratio fuzz_ratio alg frame).
Abbreviation sound := (aliases_sound SequenceMatcher_ratio fuzz_ratio alg).

Lemma merge_step_sound anchor acc row_2 :
  position anchor = word_position (pname anchor) ->
  position row_2 = word_position (pname row_2) ->
  in_window (position anchor) (position row_2) = true ->
  sound (pname anchor) (a_aliases acc) ->
  sound (pname anchor) (a_aliases (mstep2 anchor acc row_2)).
Proof.
  intros Ha Hr Hw Hacc. unfold merge_step.
  destruct (decide _); [done|].
  destruct (Qle_bool _ _) eqn:Hs; [|done]. simpl.
  apply append_new_Forall; [|done]. unfold pname in *.
  split; [done|]. by rewrite <- Ha, <- Hr.
Qed.

Lemma merge_loop_sound anchor l : forall acc,
  position anchor = word_position (pname anchor) ->
  Forall (fun r => position r = word_position (pname r)
                   /\ in_window (position anchor) (position r) = true) l ->
  sound (pname anchor) (a_aliases acc) ->
  sound (pname anchor) (a_aliases (foldl (mstep2 anchor) acc l)).
Proof.
  induction l as [|r l IH]; intros acc Ha Hl Hacc; simpl; [done|].
  apply Forall_cons in Hl as [[Hr Hw] Hl].
  apply IH; [done..|]. by apply merge_step_sound.
Qed.

Lemma cluster_step_sound st anchor :
  well_positioned frame -> anchor ∈ frame ->
  Forall (fun c => sound (c_party_name c) (aliases c)) (clusters st) ->
  Forall (fun c => sound (c_party_name c) (aliases c)) (clusters (cstep2 st anchor)).
Proof.
  intros Hwell Hin Hst. unfold cluster_step. destruct (decide _); [done|]. simpl.
  apply Forall_app. split; [done|]. apply Forall_singleton. simpl.
  assert (position anchor = word_position (pname anchor)) as Ha.
  { unfold well_positioned in Hwell. by eapply Forall_forall in Hwell. }
  apply merge_loop_sound; [done| |by constructor].
  apply Forall_forall. intros r Hr. unfold test_set in Hr.
  apply list_elem_of_filter in Hr as [Hw Hr]. split; [|done].
  unfold well_positioned in Hwell. by eapply Forall_forall in Hwell.
Qed.

Lemma cluster_loop_sound l : forall st,
  well_positioned frame -> Forall (fun r => r ∈ frame) l ->
  Forall (fun c => sound (c_party_name c) (aliases c)) (clusters st) ->
  Forall (fun c => sound (c_party_name c) (aliases c)) (clusters (foldl cstep2 st l)).
Proof.
  induction l as [|r l IH]; intros st Hwell Hl Hst; simpl; [done|].
  apply Forall_cons in Hl as [Hr Hl].
  apply IH; [done..|]. by apply cluster_step_sound.
Qed.

Lemma cluster_step_clusters st anchor :
  (index anchor ∈ removed st /\ cstep2 st anchor = st)
  \/ ((index anchor ∉ removed st)
      /\ exists c, clusters (cstep2 st anchor) = clusters st ++ [c]
                   /\ c_party_name c = pname anchor).
Proof.
  unfold cluster_step. destruct (decide _); [by left|]. right. split; [done|].
  simpl. by eexists.
Qed.

(** The loop appends clusters, anchored at rows in the order it meets
    them. *)
Lemma cluster_loop_order l : forall st,
  exists new,
    clusters (foldl cstep2 st l) = clusters st ++ new
    /\ map c_party_name new `sublist_of` map pname l.
Proof.
  induction l as [|r l IH]; intros st; simpl.
  - exists []. by rewrite app_nil_r.
  - destruct (IH (cstep2 st r)) as (new & Hnew & Hsub). rewrite Hnew.
    destruct (cluster_step_clusters st r) as [[_ ->]|(_ & c & -> & Hc)].
    + exists new. split; [done|]. by apply sublist_cons.
    + exists (c :: new). rewrite <- app_assoc. split; [done|].
      simpl. rewrite Hc. by apply sublist_skip.
Qed.

End ClusterContents.

Lemma transform_sum_names (d : Frame) : map rname (transform_sum d) = map rname d.
Proof. unfold transform_sum. by rewrite map_map. Qed.

Lemma set_names_names (d : Frame) : forall names,
  length names = length d -> map rname (set_names d names) = names.
Proof.
  induction d as [|ir d IH]; intros [|n names] Hlen; simpl in *; try done.
  f_equal. apply IH. lia.
Qed.

Lemma drop_duplicates_cover (l : Frame) : forall seen x,
  x ∈ l -> rname x ∈ seen \/ rname x ∈ map rname (drop_duplicates seen l).
Proof.
  induction l as [|ir l IH]; intros seen x Hx; [by apply elem_of_nil in Hx|].
  cbn [drop_duplicates]. fold (rname ir).
  apply elem_of_cons in Hx as [->|Hx].
  - destruct (decide (rname ir ∈ seen)); [by left|]. right. simpl.
    apply elem_of_cons. by left.
  - destruct (decide (rname ir ∈ seen)); [by apply IH|].
    destruct (IH (rname ir :: seen) x Hx) as [Hs|Hd].
    + apply elem_of_cons in Hs as [->|Hs]; [|by left].
      right. simpl. apply elem_of_cons. by left.
    + right. simpl. apply elem_of_cons. by right.
Qed.

(** Every name of a frame is the name of a surviving row. *)
Lemma exact_merge_cover (d : Frame) (n : string) :
  n ∈ map rname d -> n ∈ map rname (exact_merge d).
Proof.
  intros Hn. rewrite <- transform_sum_names in Hn.
  apply list_elem_of_fmap in Hn as (x & -> & Hx). unfold exact_merge.
  destruct (drop_duplicates_cover (transform_sum d) [] x Hx) as [Hs|Hd]; [|done].
  by apply elem_of_nil in Hs.
Qed.

Lemma exact_merge_order (d : Frame) :
  map rname (exact_merge d) `sublist_of` map rname d.
Proof.
  rewrite <- (transform_sum_names d). unfold exact_merge.
  apply (fmap_sublist rname), drop_duplicates_sublist.
Qed.

Lemma exact_merge_head (d : Frame) :
  head (map rname (exact_merge d)) = head (map rname d).
Proof.
  unfold exact_merge. rewrite <- (transform_sum_names d).
  destruct (transform_sum d) as [|x l]; [done|]. cbn [drop_duplicates].
  by rewrite decide_False by apply not_elem_of_nil.
Qed.

(** The names of the working frame are the normalized names of the
    processed rows, first occurrences in order. *)
Lemma run_names (smr : string -> string -> Q) (fr : string -> string -> Z)
    (cfg : Config) (loaded_data : list Row) (res : Result) :
  run smr fr cfg loaded_data = Returns res ->
  let names := map (fun r => normalize_name cfg (party_name r))
                   (take (size cfg) loaded_data) in
  names <> []
  /\ map pname (data res) `sublist_of` names
  /\ (forall n, n ∈ names -> n ∈ map pname (data res)).
Proof.
  intros Hrun names. destruct (run_unfold _ _ _ _ _ Hrun) as (Hok & Hlen & Hdata).
  fold names in Hlen, Hdata. rewrite Hdata, add_position_names.
  pose proof (set_names_names (load (size cfg) loaded_data) names Hlen) as Hsn.
  split; [|split].
  - destruct (proj1 (run_returns smr fr cfg loaded_data) (ex_intro _ res Hrun)) as [Hne _].
    unfold names. by destruct (take (size cfg) loaded_data).
  - rewrite <- Hsn at 2. apply exact_merge_order.
  - intros n Hn. apply exact_merge_cover. by rewrite Hsn.
Qed.

(** X6. Every normalized name of a processed row stands in the output,
    and no name stands there twice (as anchor or as alias): rows whose
    names normalize to the same text are counted in the same, single
    cluster. *)
Theorem every_name_in_one_cluster (smr : string -> string -> Q) (fr : string -> string -> Z)
    (cfg : Config) (loaded_data : list Row) (res : Result) :
  run smr fr cfg loaded_data = Returns res ->
  NoDup (flat_map members (output_df res))
  /\ (forall r, r ∈ take (size cfg) loaded_data ->
        normalize_name cfg (party_name r) ∈ flat_map members (output_df res)).
Proof.
  intros Hrun.
  destruct (run_frame _ _ _ _ _ Hrun) as (Hidx & Hnm & Hout & _).
  destruct (build_books smr fr (algorithm cfg) (data res) Hidx Hnm)
    as (_ & _ & _ & Hmem & _ & _).
  rewrite <- Hout in Hmem.
  destruct (run_names _ _ _ _ _ Hrun) as (_ & _ & Hcover).
  split; [by rewrite Hmem|].
  intros r Hr. rewrite Hmem. apply Hcover.
  by apply (list_elem_of_fmap_2 (fun r => normalize_name cfg (party_name r))).
Qed.

Lemma every_name_in_one_cluster_witness :
  exists res,
    run sample_ratio fuzz_ratio_indel sample_config sample_table = Returns res
    /\ NoDup (flat_map members (output_df res)).
Proof.
  eexists. split; [vm_compute; reflexivity|].
  apply (every_name_in_one_cluster sample_ratio fuzz_ratio_indel sample_config sample_table).
  vm_compute. reflexivity.
Defined.

(** X7. The output has one row per cluster: the number of clusters
    plus [fuzzy_match_count] is the number of rows that survived the
    exact-merge pass; a run that returns gives at least one cluster, so
    the match count stays below the number of surviving rows. *)
Theorem output_size (smr : string -> string -> Q) (fr : string -> string -> Z)
    (cfg : Config) (loaded_data : list Row) (res : Result) :
  run smr fr cfg loaded_data = Returns res ->
  Z.of_nat (length (output_df res)) + fuzzy_match_count res
  = Z.of_nat (length (data res))
  /\ output_df res <> []
  /\ 0 <= fuzzy_match_count res < Z.of_nat (length (data res)).
Proof.
  intros Hrun.
  destruct (run_frame _ _ _ _ _ Hrun) as (Hidx & Hnm & Hout & Hfm).
  destruct (build_books smr fr (algorithm cfg) (data res) Hidx Hnm)
    as (_ & _ & _ & Hmem & _ & Hm).
  rewrite <- Hout in Hmem, Hm. rewrite <- Hfm in Hm.
  pose proof (members_length (output_df res)) as Hlen.
  apply Permutation_length in Hmem. rewrite Hmem, length_map in Hlen.
  destruct (run_names _ _ _ _ _ Hrun) as (Hne & _ & Hcover).
  assert (data res <> []) as Hdata.
  { destruct (map _ (take (size cfg) loaded_data)) as [|n ns] eqn:Hn; [done|].
    specialize (Hcover n ltac:(apply elem_of_cons; by left)).
    intros Hnil. rewrite Hnil in Hcover. by apply elem_of_nil in Hcover. }
  assert (output_df res <> []) as Hout'.
  { intros Hnil. rewrite Hnil in Hlen. simpl in Hlen.
    destruct (data res); [done | simpl in Hlen; lia]. }
  split; [lia|]. split; [done|].
  destruct (output_df res); [done|]. simpl in *. lia.
Qed.

Lemma output_size_witness :
  exists res,
    run sample_ratio fuzz_ratio_indel sample_config sample_table = Returns res
    /\ Z.of_nat (length (output_df res)) + fuzzy_match_count res
       = Z.of_nat (length (data res)).
Proof.
  eexists. split; [vm_compute; reflexivity|].
  apply (output_size sample_ratio fuzz_ratio_indel sample_config sample_table).
  vm_compute. reflexivity.
Defined.

(** X8. Every alias of an output cluster scored at least 0.8 against
    the cluster's anchor name under the configured algorithm, and the
    position of its name lies in the window of the anchor's position. *)
Theorem aliases_pass_threshold (smr : string -> string -> Q) (fr : string -> string -> Z)
    (cfg : Config) (loaded_data : list Row) (res : Result) :
  run smr fr cfg loaded_data = Returns res ->
  forall c a, c ∈ output_df res -> a ∈ aliases c ->
    Qle_bool (8 # 10) (score smr fr (algorithm cfg) (c_party_name c) a) = true
    /\ in_window (word_position (c_party_name c)) (word_position a) = true.
Proof.
  intros Hrun c a Hc Ha.
  destruct (run_frame _ _ _ _ _ Hrun) as (_ & _ & Hout & _).
  destruct (run_unfold _ _ _ _ _ Hrun) as (_ & _ & Hdata).
  assert (well_positioned (data res)) as Hwell
    by (rewrite Hdata; apply add_position_well).
  pose proof (cluster_loop_sound smr fr (algorithm cfg) (data res) (data res)
                (mkBuilder [] [] 0) Hwell) as Hs.
  fold (build smr fr (algorithm cfg) (data res)) in Hs. rewrite <- Hout in Hs.
  specialize (Hs ltac:(by apply Forall_forall) ltac:(constructor)).
  eapply Forall_forall in Hs; [|exact Hc].
  unfold aliases_sound in Hs. by eapply Forall_forall in Hs.
Qed.

Lemma aliases_pass_threshold_witness :
  Qle_bool (8 # 10) (score sample_ratio fuzz_ratio_indel "levenshtein" "abc apt" "abc apts")
  = true
  /\ in_window (word_position "abc apt") (word_position "abc apts") = true.
Proof.
  apply (aliases_pass_threshold sample_ratio fuzz_ratio_indel sample_config sample_table
           (mkResult
              [mkPRow 0 (mkRow "abc apt" "plaintiff" "1 Main St" "eviction" 2020 8) 434;
               mkPRow 1 (mkRow "abc apts" "defendant" "1 Main St" "eviction" 2019 4) 518;
               mkPRow 3 (mkRow "smith john" "defendant" "3 Oak Ave" "eviction" 2018 1) 702]
              9997 1
              [mkCluster "abc apt" ["abc apts"] ["plaintiff"; "defendant"]
                 ["1 Main St"] ["eviction"] [2020; 2019] 12;
               mkCluster "smith john" [] ["defendant"] ["3 Oak Ave"] ["eviction"] [2018] 1])
           ltac:(vm_compute; reflexivity)
           (mkCluster "abc apt" ["abc apts"] ["plaintiff"; "defendant"]
              ["1 Main St"] ["eviction"] [2020; 2019] 12)
           "abc apts").
  - apply elem_of_cons. by left.
  - apply elem_of_cons. by left.
Defined.

(** X10. On a run over a non-empty slice that returns, the output
    follows the input order: the anchor names of the clusters, in
    output order, are taken in order from the names of the surviving
    rows, which are taken in order from the normalized names of the
    processed rows; the first cluster is anchored at the first
    processed row. *)
Theorem output_in_input_order (smr : string -> string -> Q) (fr : string -> string -> Z)
    (cfg : Config) (loaded_data : list Row) (res : Result) :
  run smr fr cfg loaded_data = Returns res ->
  let names := map (fun r => normalize_name cfg (party_name r))
                   (take (size cfg) loaded_data) in
  map c_party_name (output_df res) `sublist_of` map pname (data res)
  /\ map pname (data res) `sublist_of` names
  /\ head (map c_party_name (output_df res)) = head names.
Proof.
  intros Hrun names.
  destruct (run_frame _ _ _ _ _ Hrun) as (_ & _ & Hout & _).
  destruct (run_names _ _ _ _ _ Hrun) as (Hne & Hsub & _). fold names in Hne, Hsub.
  destruct (cluster_loop_order smr fr (algorithm cfg) (data res) (data res)
              (mkBuilder [] [] 0)) as (new & Hnew & Hord).
  fold (build smr fr (algorithm cfg) (data res)) in Hnew. rewrite <- Hout in Hnew.
  simpl in Hnew. subst new.
  split; [done|]. split; [done|].
  assert (head (map pname (data res)) = head names) as Hhead.
  { destruct (run_unfold _ _ _ _ _ Hrun) as (_ & Hlen & Hdata). fold names in Hlen, Hdata.
    rewrite Hdata, add_position_names, exact_merge_head.
    by rewrite set_names_names. }
  rewrite <- Hhead, Hout. unfold build.
  destruct (data res) as [|p ps] eqn:Hd; [done|]. simpl.
  destruct (cluster_step_clusters smr fr (algorithm cfg) (p :: ps) (mkBuilder [] [] 0) p)
    as [[Hin _]|(_ & c & Hc & Hcn)]; [by apply elem_of_nil in Hin|].
  destruct (cluster_loop_order smr fr (algorithm cfg) (p :: ps) ps
              (cluster_step smr fr (algorithm cfg) (p :: ps) (mkBuilder [] [] 0) p))
    as (new & -> & _).
  rewrite Hc. simpl. by rewrite Hcn.
Qed.

Lemma output_in_input_order_witness :
  exists res,
    run sample_ratio fuzz_ratio_indel sample_config sample_table = Returns res
    /\ map c_party_name (output_df res) `sublist_of` map pname (data res).
Proof.
  eexists. split; [vm_compute; reflexivity|].
  apply (output_in_input_order sample_ratio fuzz_ratio_indel sample_config sample_table).
  vm_compute. reflexivity.
Defined.

(** ** Clusters as sets of rows *)

Section ClusterRows.

Variable SequenceMatcher_ratio : string -> string -> Q.
Variable fuzz_ratio : string -> string -> Z.
Variable alg : string.
Variable frame : list PRow.
Hypothesis name_unique : NoDup (map pname frame).

Abbreviation cstep3 := (cluster_step SequenceMatcher_ratio fuzz_ratio alg frame).

Lemma cluster_step_rows st used anchor :
  anchor ∈ frame ->
  builder_inv frame st used ->
  Forall (cluster_of_rows frame) (clusters st) ->
  Forall (cluster_of_rows frame) (clusters (cstep3 st anchor)).
Proof.
  intros Hin (Hrem & Hused & Hnd & Hmem & Hcnt & Hm) Hst.
  unfold cluster_step.
  destruct (decide (index anchor ∈ removed st)) as [|Hfresh]; [done|].
  rewrite Hrem in Hfresh.
  set (acc0 := mkAcc _ _ _ _ _ _ _ _).
  assert (Forall (fun r => r ∈ frame) (used ++ [anchor])) as Hused'.
  { apply Forall_app. split; [done|]. by apply Forall_singleton. }
  assert (acc_inv frame anchor (used ++ [anchor]) (matches st) acc0 []) as Hacc0.
  { unfold acc_inv, acc0; simpl. rewrite !app_nil_r, Hrem, map_app. simpl.
    repeat split; try done; try (unfold pcount; lia).
    apply NoDup_app. split; [done|]. split.
    - intros i Hi Hi'. apply list_elem_of_singleton in Hi'. by subst.
    - apply NoDup_singleton. }
  destruct (merge_loop_inv SequenceMatcher_ratio fuzz_ratio alg frame name_unique
              anchor (used ++ [anchor]) (matches st)
              (test_set frame anchor) acc0 [] Hused' (test_set_frame frame anchor) Hacc0)
    as (ms & Hrem' & Hms & Hnd' & Hal & Hcnt' & Hm').
  simpl. apply Forall_app. split; [done|]. apply Forall_singleton.
  exists anchor, ms. simpl. by repeat split.
Qed.

Lemma cluster_loop_rows l : forall st used,
  Forall (fun r => r ∈ frame) l ->
  builder_inv frame st used ->
  Forall (cluster_of_rows frame) (clusters st) ->
  Forall (cluster_of_rows frame) (clusters (foldl cstep3 st l)).
Proof.
  induction l as [|r l IH]; intros st used Hl Hinv Hst; simpl; [done|].
  apply Forall_cons in Hl as [Hr Hl].
  destruct (cluster_step_inv SequenceMatcher_ratio fuzz_ratio alg frame name_unique
              st used r Hr Hinv) as [used' Hinv'].
  apply (IH _ used'); [done..|]. by apply (cluster_step_rows st used).
Qed.

End ClusterRows.

(** X11. Every output cluster is made of rows of the working frame: an
    anchor row that gives the cluster its name, and merged rows whose
    names are the aliases in order; the cluster's [party_count] is the
    anchor's count plus the counts of the merged rows. *)
Theorem cluster_count_is_member_sum (smr : string -> string -> Q)
    (fr : string -> string -> Z) (cfg : Config) (loaded_data : list Row) (res : Result) :
  run smr fr cfg loaded_data = Returns res ->
  forall c, c ∈ output_df res ->
    exists anchor ms,
      anchor ∈ data res
      /\ Forall (fun r => r ∈ data res) ms
      /\ c_party_name c = pname anchor
      /\ aliases c = map pname ms
      /\ c_party_count c = pcount anchor + total pcount ms.
Proof.
  intros Hrun c Hc.
  destruct (run_frame _ _ _ _ _ Hrun) as (_ & Hnm & Hout & _).
  assert (builder_inv (data res) (mkBuilder [] [] 0) []) as H0.
  { unfold builder_inv; simpl. repeat split; try done; constructor. }
  pose proof (cluster_loop_rows smr fr (algorithm cfg) (data res) Hnm (data res)
                (mkBuilder [] [] 0) [] ltac:(by apply Forall_forall) H0
                ltac:(constructor)) as Hrows.
  fold (build smr fr (algorithm cfg) (data res)) in Hrows. rewrite <- Hout in Hrows.
  eapply Forall_forall in Hrows; [|exact Hc]. exact Hrows.
Qed.

Lemma cluster_count_is_member_sum_witness :
  exists res,
    run sample_ratio fuzz_ratio_indel sample_config sample_table = Returns res
    /\ Forall (cluster_of_rows (data res)) (output_df res).
Proof.
  eexists. split; [vm_compute; reflexivity|].
  apply Forall_forall.
  apply (cluster_count_is_member_sum sample_ratio fuzz_ratio_indel sample_config sample_table).
  vm_compute. reflexivity.
Defined.

(** ** The selector *)

Lemma foldl_pointwise {A B} (f g : A -> B -> A) (l : list B) : forall a,
  (forall a x, f a x = g a x) -> foldl f a l = foldl g a l.
Proof.
  induction l as [|x l IH]; intros a Hfg; simpl; [done|]. by rewrite Hfg, IH.
Qed.

Lemma build_same_score (smr : string -> string -> Q) (fr : string -> string -> Z)
    (alg alg' : string) (frame : list PRow) :
  (forall a b, score smr fr alg a b = score smr fr alg' a b) ->
  build smr fr alg frame = build smr fr alg' frame.
Proof.
  intros Hs. unfold build. apply foldl_pointwise. intros st anchor.
  unfold cluster_step. destruct (decide _); [done|].
  rewrite (foldl_pointwise (merge_step smr fr alg anchor) (merge_step smr fr alg' anchor));
    [done|].
  intros acc r. unfold merge_step. by rewrite Hs.
Qed.

(** X12. A run under a selector that is neither ['seq'] nor
    ['levenshtein'] leaves exactly what the run under ['seq'] leaves:
    the same working frame, metrics and clusters. *)
Theorem unknown_selector_runs_as_seq (smr : string -> string -> Q)
    (fr : string -> string -> Z) (cfg : Config) (loaded_data : list Row) :
  algorithm cfg <> "seq" -> algorithm cfg <> "levenshtein" ->
  run smr fr cfg loaded_data = run smr fr (with_algorithm cfg "seq") loaded_data.
Proof.
  intros Hs Hl. unfold run.
  change (normalize_column (with_algorithm cfg "seq")) with (normalize_column cfg).
  change (size (with_algorithm cfg "seq")) with (size cfg).
  change (algorithm (with_algorithm cfg "seq")) with "seq".
  destruct (normalize_column cfg _) as [names|]; [|done].
  rewrite (build_same_score smr fr (algorithm cfg) "seq"); [done|].
  intros a b. unfold score.
  rewrite (decide_False (P := algorithm cfg = "seq")) by done.
  rewrite (decide_False (P := algorithm cfg = "levenshtein")) by done.
  by rewrite (decide_True (P := "seq" = "seq")).
Qed.

Lemma unknown_selector_runs_as_seq_witness :
  run sample_ratio fuzz_ratio_indel (with_algorithm sample_config "jaro") sample_table
  = run sample_ratio fuzz_ratio_indel (with_algorithm sample_config "seq") sample_table.
Proof.
  apply (unknown_selector_runs_as_seq sample_ratio fuzz_ratio_indel
           (with_algorithm sample_config "jaro") sample_table);
    vm_compute; discriminate.
Defined.

(** ** Exact merge, row by row *)

Lemma group_counts_absent (d : Frame) (n : string) :
  n ∉ map rname d -> group_counts d n = [].
Proof.
  induction d as [|x d IH]; [done|]. intros Hn.
  rewrite group_counts_cons_ne.
  - apply IH. intros Hin. apply Hn. simpl. apply elem_of_cons. by right.
  - intros Heq. apply Hn. simpl. apply elem_of_cons. by left.
Qed.

Lemma group_counts_unique (d : Frame) (ir : nat * Row) :
  NoDup (map rname d) -> ir ∈ d -> group_counts d (rname ir) = [rcount ir].
Proof.
  induction d as [|x d IH]; intros Hnd Hin; [by apply elem_of_nil in Hin|].
  simpl in Hnd. apply NoDup_cons in Hnd as [Hx Hnd].
  apply elem_of_cons in Hin as [->|Hin].
  - by rewrite group_counts_cons_eq, group_counts_absent.
  - rewrite group_counts_cons_ne; [by apply IH|].
    intros Heq. apply Hx. rewrite Heq. by apply (list_elem_of_fmap_2 rname).
Qed.

(** The sum of a group of one row is the cell of that row. *)
Lemma group_sum_unique (d : Frame) (ir : nat * Row) :
  NoDup (map rname d) -> ir ∈ d -> group_sum d (rname ir) = rcount ir.
Proof.
  intros Hnd Hin. unfold group_sum. by rewrite group_counts_unique.
Qed.

Lemma set_party_count_same (r : Row) : set_party_count r (party_count r) = r.
Proof. by destruct r. Qed.

Lemma transform_sum_distinct (d : Frame) :
  NoDup (map rname d) -> transform_sum d = d.
Proof.
  intros Hnd. unfold transform_sum. rewrite <- (map_id d) at 2.
  apply map_ext_in. intros ir Hin. apply list_elem_of_In in Hin.
  fold (rname ir). rewrite (group_sum_unique d ir Hnd Hin).
  unfold rcount. rewrite set_party_count_same. by destruct ir.
Qed.

Lemma drop_duplicates_distinct (d : Frame) : forall seen,
  NoDup (map rname d) ->
  Forall (fun ir => rname ir ∉ seen) d ->
  drop_duplicates seen d = d.
Proof.
  induction d as [|x d IH]; intros seen Hnd Hseen; [done|].
  simpl in Hnd. apply NoDup_cons in Hnd as [Hx Hnd].
  apply Forall_cons in Hseen as [Hxs Hds].
  cbn [drop_duplicates]. fold (rname x). rewrite decide_False by done.
  f_equal. apply IH; [done|].
  apply Forall_forall. intros ir Hir Hin.
  apply elem_of_cons in Hin as [Heq|Hin].
  - apply Hx. rewrite <- Heq. by apply (list_elem_of_fmap_2 rname).
  - eapply Forall_forall in Hds; [|exact Hir]. by apply Hds.
Qed.

Lemma exact_merge_distinct (d : Frame) :
  NoDup (map rname d) -> exact_merge d = d.
Proof.
  intros Hnd. unfold exact_merge. rewrite transform_sum_distinct by done.
  apply drop_duplicates_distinct; [done|].
  apply Forall_forall. intros ir _. apply not_elem_of_nil.
Qed.

(** X13. The exact-merge pass changes nothing on a frame whose names
    are pairwise distinct, and a second exact-merge pass changes
    nothing on any frame. *)
Theorem exact_merge_fixed (d : Frame) :
  (NoDup (map rname d) -> exact_merge d = d)
  /\ exact_merge (exact_merge d) = exact_merge d.
Proof.
  split; [apply exact_merge_distinct|].
  apply exact_merge_distinct, exact_merge_names.
Qed.

Lemma exact_merge_fixed_witness :
  exact_merge [(0%nat, mkRow "a" "p" "x" "e" 2020 3); (1%nat, mkRow "b" "d" "y" "e" 2019 4)]
  = [(0%nat, mkRow "a" "p" "x" "e" 2020 3); (1%nat, mkRow "b" "d" "y" "e" 2019 4)].
Proof.
  apply (proj1 (exact_merge_fixed
           [(0%nat, mkRow "a" "p" "x" "e" 2020 3); (1%nat, mkRow "b" "d" "y" "e" 2019 4)])).
  apply (bool_decide_unpack _). by vm_compute.
Defined.

Lemma exact_merge_counts (d : Frame) (ir : nat * Row) :
  ir ∈ exact_merge d -> rcount ir = group_sum d (rname ir).
Proof.
  intros Hin. unfold exact_merge in Hin.
  apply (fun H => elem_of_sublist _ _ _ H (drop_duplicates_sublist _ _)) in Hin.
  unfold transform_sum in Hin. apply list_elem_of_fmap in Hin as (x & -> & _).
  done.
Qed.

Lemma exact_merge_indices (d : Frame) (ir : nat * Row) :
  ir ∈ exact_merge d ->
  exists r, (ir.1, r) ∈ d /\ party_name ir.2 = party_name r
            /\ party_type ir.2 = party_type r /\ party_address ir.2 = party_address r
            /\ case_type ir.2 = case_type r /\ year ir.2 = year r.
Proof.
  intros Hin. unfold exact_merge in Hin.
  apply (fun H => elem_of_sublist _ _ _ H (drop_duplicates_sublist _ _)) in Hin.
  unfold transform_sum in Hin. apply list_elem_of_fmap in Hin as ([i r] & -> & Hx).
  exists r. by repeat split.
Qed.

(** X14. On a table whose [party_count] cells are [int64], every row
    that survives the exact-merge pass carries the [int64] sum of the
    cells of all processed rows whose name normalizes to its name,
    added in row order: the sum of these counts when it lies in the
    [int64] range, and always a value that differs from it by a
    multiple of 2^64. *)
Theorem survivor_count_is_group_sum (smr : string -> string -> Q)
    (fr : string -> string -> Z) (cfg : Config) (loaded_data : list Row) (res : Result) :
  run smr fr cfg loaded_data = Returns res ->
  int64_cells (take (size cfg) loaded_data) ->
  forall p, p ∈ data res ->
    let group := filter (fun r => normalize_name cfg (party_name r) = pname p)
                        (take (size cfg) loaded_data) in
    pcount p = sum64 (map party_count group)
    /\ (pcount p - total party_count group) mod int64_modulus = 0
    /\ (in_int64 (total party_count group) -> pcount p = total party_count group).
Proof.
  intros Hrun _ p Hp group.
  destruct (run_unfold _ _ _ _ _ Hrun) as (_ & _ & Hdata).
  rewrite Hdata in Hp. unfold add_position in Hp.
  apply list_elem_of_fmap in Hp as (ir & Hpir & Hir).
  assert (pname p = rname ir) as Hname by (by rewrite Hpir).
  assert (pcount p = rcount ir) as Hcount by (by rewrite Hpir).
  assert (pcount p = sum64 (map party_count group)) as Hsum.
  { rewrite Hcount, (exact_merge_counts _ _ Hir). unfold group_sum, load.
    rewrite (group_counts_set_names (fun r => normalize_name cfg (party_name r)))
      by (by rewrite length_seq).
    unfold group. by rewrite Hname. }
  assert (total (fun c => c) (map party_count group) = total party_count group) as Ht
    by (by rewrite total_map).
  split; [done|]. split.
  - destruct (sum64_mod (map party_count group)) as [k Hk].
    apply (multiple_mod _ _ k). by rewrite Hsum, Hk, Ht.
  - intros Hin. rewrite Hsum, <- Ht. apply sum64_exact. by rewrite Ht.
Qed.

Lemma survivor_count_is_group_sum_witness :
  exists res,
    run sample_ratio fuzz_ratio_indel sample_config sample_table = Returns res
    /\ int64_cells (take (size sample_config) sample_table)
    /\ Forall (fun p => pcount p
                        = total party_count
                            (filter (fun r => normalize_name sample_config (party_name r)
                                              = pname p)
                                    (take (size sample_config) sample_table)))
              (data res).
Proof.
  assert (int64_cells (take (size sample_config) sample_table)) as Hcells.
  { apply (no_overflow_nonneg sample_config); [|vm_compute; discriminate].
    repeat (apply Forall_cons; split; [simpl; lia|]). by apply Forall_nil. }
  eexists. split; [vm_compute; reflexivity|]. split; [exact Hcells|].
  apply Forall_forall. intros p Hp.
  apply (survivor_count_is_group_sum sample_ratio fuzz_ratio_indel sample_config sample_table
           _ ltac:(vm_compute; reflexivity) Hcells p Hp).
  apply (no_overflow_nonneg sample_config); [|vm_compute; discriminate].
  repeat (apply Forall_cons; split; [simpl; lia|]). by apply Forall_nil.
Defined.

Lemma drop_duplicates_first (l : Frame) : forall seen x,
  x ∈ drop_duplicates seen l ->
  exists l1 l2, l = l1 ++ x :: l2 /\ (rname x ∉ map rname l1) /\ (rname x ∉ seen).
Proof.
  induction l as [|y l IH]; intros seen x Hx; [by apply elem_of_nil in Hx|].
  cbn [drop_duplicates] in Hx. fold (rname y) in Hx.
  destruct (decide (rname y ∈ seen)) as [Hy|Hy].
  - destruct (IH seen x Hx) as (l1 & l2 & -> & H1 & Hs).
    exists (y :: l1), l2. split; [done|]. split; [|done].
    simpl. intros [Heq|Hin]%elem_of_cons; [|done]. apply Hs. by rewrite Heq.
  - apply elem_of_cons in Hx as [->|Hx].
    + exists [], l. split; [done|]. split; [apply not_elem_of_nil | done].
    + destruct (IH (rname y :: seen) x Hx) as (l1 & l2 & -> & H1 & Hs).
      exists (y :: l1), l2. split; [done|]. split.
      * simpl. intros [Heq|Hin]%elem_of_cons; [|done].
        apply Hs. apply elem_of_cons. by left.
      * intros Hin. apply Hs. apply elem_of_cons. by right.
Qed.

(** A surviving row sits, in the frame, after no row of its name, at
    the place its index label says. *)
Lemma exact_merge_first (rows : list Row) (names : list string) (x : nat * Row) :
  length names = length rows ->
  x ∈ exact_merge (set_names (zip (seq 0 (length rows)) rows) names) ->
  forall j n, (j < x.1)%nat -> names !! j = Some n -> n <> rname x.
Proof.
  intros Hlen Hx j n Hj Hn.
  set (d := set_names (zip (seq 0 (length rows)) rows) names) in *.
  assert (length names = length (zip (seq 0 (length rows)) rows)) as Hlen'.
  { rewrite length_zip_with, length_seq. lia. }
  unfold exact_merge in Hx.
  apply drop_duplicates_first in Hx as (l1 & l2 & Hsplit & Hfirst & _).
  assert (map fst (transform_sum d) = seq 0 (length rows)) as Hidx.
  { unfold transform_sum. rewrite map_map. simpl.
    change (map (fun x0 : nat * Row => x0.1) d) with (map fst d).
    unfold d. rewrite set_names_index by done. apply fst_zip. by rewrite length_seq. }
  assert (map rname (transform_sum d) = names) as Hnames.
  { rewrite transform_sum_names. unfold d. by apply set_names_names. }
  rewrite Hsplit in Hidx, Hnames. rewrite map_app in Hidx, Hnames. simpl in Hidx, Hnames.
  assert (x.1 = length l1) as Hpos.
  { assert (seq 0 (length rows) !! length l1 = Some x.1) as Hl.
    { rewrite <- Hidx. rewrite lookup_app_r by (by rewrite length_map).
      by rewrite length_map, Nat.sub_diag. }
    apply lookup_seq in Hl as [-> _]. done. }
  rewrite <- Hnames in Hn. rewrite lookup_app_l in Hn by (rewrite length_map; lia).
  intros ->. apply Hfirst. by eapply list_elem_of_lookup_2.
Qed.

(** X15. On a run over a non-empty slice that returns, a surviving
    row is the first processed row of its name: its index label points,
    in the processed slice, at a row that normalizes to its name and
    has its party type, address, case type and year, no earlier row of
    the slice normalizes to that name, and its position is the blocking
    key of its name. *)
Theorem survivor_keeps_row (smr : string -> string -> Q)
    (fr : string -> string -> Z) (cfg : Config) (loaded_data : list Row) (res : Result) :
  run smr fr cfg loaded_data = Returns res ->
  forall p, p ∈ data res ->
    position p = word_position (pname p)
    /\ (exists r,
          take (size cfg) loaded_data !! index p = Some r
          /\ pname p = normalize_name cfg (party_name r)
          /\ party_type (row p) = party_type r
          /\ party_address (row p) = party_address r
          /\ case_type (row p) = case_type r
          /\ year (row p) = year r)
    /\ (forall j r, (j < index p)%nat ->
          take (size cfg) loaded_data !! j = Some r ->
          normalize_name cfg (party_name r) <> pname p).
Proof.
  intros Hrun p Hp.
  destruct (run_unfold _ _ _ _ _ Hrun) as (_ & Hlen & Hdata).
  assert (well_positioned (data res)) as Hwell
    by (rewrite Hdata; apply add_position_well).
  split; [unfold well_positioned in Hwell; by eapply Forall_forall in Hwell|].
  rewrite Hdata in Hp. unfold add_position in Hp.
  apply list_elem_of_fmap in Hp as (ir & -> & Hir). simpl. split.
  - apply exact_merge_indices in Hir as (r' & Hin & Hn & Ht & Ha & Hk & Hy).
    unfold set_names, load in Hin.
    apply list_elem_of_lookup in Hin as (j & Hj).
    apply lookup_zip_with_Some in Hj as ([i r] & n & Heq & Hzip & Hname).
    simpl in Heq.
    assert (ir.1 = i) as Hi by congruence.
    assert (r' = set_party_name r n) as Hr by congruence.
    apply lookup_zip_with_Some in Hzip as (i' & r0 & Heq' & Hseq & Hrow).
    injection Heq' as -> ->.
    apply lookup_seq in Hseq as [Hij _]. simpl in Hij. subst i'.
    rewrite list_lookup_fmap, Hrow in Hname. simpl in Hname. injection Hname as <-.
    exists r0. rewrite Hi. split; [done|]. unfold pname. simpl.
    rewrite Hn, Ht, Ha, Hk, Hy, Hr. by destruct r0.
  - intros j r Hj Hr. unfold pname. simpl. fold (rname ir).
    unfold load in Hir, Hlen.
    apply (exact_merge_first (take (size cfg) loaded_data)
             (map (fun r => normalize_name cfg (party_name r)) (take (size cfg) loaded_data))
             ir ltac:(by rewrite length_map) Hir j); [done|].
    by rewrite list_lookup_fmap, Hr.
Qed.

Lemma survivor_keeps_row_witness :
  exists res,
    run sample_ratio fuzz_ratio_indel sample_config sample_table = Returns res
    /\ Forall (fun p => position p = word_position (pname p)) (data res).
Proof.
  eexists. split; [vm_compute; reflexivity|].
  apply Forall_forall. intros p Hp.
  apply (survivor_keeps_row sample_ratio fuzz_ratio_indel sample_config sample_table _
           ltac:(vm_compute; reflexivity) p Hp).
Defined.

(** ** The normalizer, token by token *)

(** X16. [abbreviate] works token by token: when no value of the table
    holds a space, the tokens of the result are the tokens of the name,
    each replaced by its abbreviation if it is a key and kept
    otherwise; a name none of whose tokens is a key comes back
    unchanged. *)
Theorem abbreviate_token_wise (abbr : gmap string string) (s : string) :
  (forall k v, abbr !! k = Some v -> Str.contains " " v = false) ->
  Str.split " " (abbreviate abbr s)
  = map (fun t => default t (abbr !! t)) (Str.split " " s)
  /\ (Forall (fun t => abbr !! t = None) (Str.split " " s) -> abbreviate abbr s = s).
Proof.
  intros Hval. split; [|apply nokey_fixed].
  unfold abbreviate.
  assert (map (fun item => match abbr !! item with Some a => a | None => item end)
              (Str.split " " s)
          = map (fun t => default t (abbr !! t)) (Str.split " " s)) as ->.
  { apply map_ext. intros t. by destruct (abbr !! t). }
  apply (split_join " ").
  - pose proof (split_nonempty " " s). by destruct (Str.split " " s).
  - apply Forall_map. eapply Forall_impl; [apply (split_pieces " " s)|].
    intros t Ht. simpl. destruct (abbr !! t) as [v|] eqn:Hl; simpl; [|done].
    by apply (Hval t).
Qed.

Lemma abbreviate_token_wise_witness :
  Str.split " " (abbreviate notebook_abbreviations "acme property management")
  = ["acme"; "prop"; "mgt"].
Proof.
  etransitivity.
  - apply (abbreviate_token_wise notebook_abbreviations "acme property management").
    intros k v Hkv.
    apply (map_Forall_lookup_1 (fun _ v => Str.contains " " v = false)
             notebook_abbreviations k v); [|exact Hkv].
    apply (bool_decide_unpack _). by vm_compute.
  - vm_compute. reflexivity.
Defined.

(** X17. When the abbreviation values are left alone by the pipeline
    (or no table is configured), a normalized name holds no character of
    the deletion table, no capital, no whitespace other than single
    spaces between, before or after its tokens. *)
Theorem normalized_name_shape (cfg : Config) (name : string) :
  abbr_ok cfg = true ->
  let o := normalize_name cfg name in
  all_chars (fun c => negb (Str.contains c (punct_of (remove_numbers cfg)))) o = true
  /\ Str.lower o = o
  /\ ws_collapsed false o = true.
Proof.
  intros Hok o.
  assert (normal_form (punct_of (remove_numbers cfg)) o = true) as Hnf.
  { unfold o, normalize_name. apply abbr_step_normal; [done|].
    apply stop_step_normal, first_steps_normal. }
  unfold normal_form in Hnf. apply andb_true_iff in Hnf as [Hc Hw].
  split; [|split; [by apply (normal_lower (punct_of (remove_numbers cfg))) | done]].
  eapply all_chars_impl; [|exact Hc]. intros c Hcc. cbv beta in Hcc.
  destruct (space_or_ok _ c Hcc) as [[-> _]|[_ Hch]].
  - by rewrite space_not_punct.
  - apply char_ok_parts in Hch as (-> & _). done.
Qed.

Lemma normalized_name_shape_witness :
  Str.lower (normalize_name test_a_config "  Acme   Property Management, Inc. No.5 ")
  = normalize_name test_a_config "  Acme   Property Management, Inc. No.5 ".
Proof.
  apply (normalized_name_shape test_a_config "  Acme   Property Management, Inc. No.5 ").
  vm_compute. reflexivity.
Defined.

(** ** A table of one row *)

Lemma merge_loop_self (smr : string -> string -> Q) (fr : string -> string -> Z)
    (alg : string) (p : PRow) (acc : Acc) :
  index p ∈ a_removed acc ->
  foldl (merge_step smr fr alg p) acc (test_set [p] p) = acc.
Proof.
  intros Hin. unfold test_set. rewrite filter_cons.
  destruct (decide _); [|done]. simpl. unfold merge_step.
  by rewrite decide_True.
Qed.

(** X18. A table of one row whose name holds no ['|'], run with a
    [size] of at least one, gives one cluster: the normalized name, no
    alias, the row's own attributes and count, and no match. *)
Theorem single_row_table (smr : string -> string -> Q) (fr : string -> string -> Z)
    (cfg : Config) (r : Row) :
  size cfg <> O ->
  Str.contains "|" (party_name r) = false ->
  let n := normalize_name cfg (party_name r) in
  run smr fr cfg [r]
  = Returns (mkResult
            [mkPRow 0 (mkRow n (party_type r) (party_address r) (case_type r)
                             (year r) (party_count r))
                    (word_position n)]
            (Z.of_nat (size cfg) - 1) 0
            [mkCluster n [] [party_type r] [party_address r] [case_type r]
                       [year r] (party_count r)]).
Proof.
  intros Hsize Hbar n. unfold run.
  assert (load (size cfg) [r] = [(0%nat, r)]) as ->.
  { unfold load. destruct (size cfg) as [|m]; [done|]. simpl. by rewrite take_nil. }
  unfold names_of. simpl map.
  rewrite normalize_column_spec. unfold column_ok. simpl forallb. rewrite Hbar.
  cbn [negb andb]. change (grown [party_name r]) with [party_name r].
  cbn [map]. fold n.
  assert (exact_merge (set_names [(0%nat, r)] [n])
          = [(0%nat, mkRow n (party_type r) (party_address r) (case_type r)
                           (year r) (party_count r))]) as ->.
  { apply exact_merge_distinct. apply NoDup_singleton. }
  unfold add_position, build. cbn [map foldl fst snd length].
  unfold cluster_step. cbn [removed index].
  rewrite (decide_False (P := 0%nat ∈ [])) by apply not_elem_of_nil.
  rewrite merge_loop_self by (simpl; apply elem_of_cons; by left).
  simpl. done.
Qed.

Lemma single_row_table_witness :
  option_map output_df
    (returned (run sample_ratio fuzz_ratio_indel sample_config
                 [mkRow "Smith, John" "defendant" "3 Oak Ave" "eviction" 2018 1]))
  = Some [mkCluster "smith john" [] ["defendant"] ["3 Oak Ave"] ["eviction"] [2018] 1].
Proof.
  rewrite (single_row_table sample_ratio fuzz_ratio_indel sample_config
             (mkRow "Smith, John" "defendant" "3 Oak Ave" "eviction" 2018 1));
    [|vm_compute; discriminate | vm_compute; reflexivity].
  vm_compute. reflexivity.
Defined.

(** ** The loop takes every row that passes *)

Section Greedy.

Variable SequenceMatcher_ratio : string -> string -> Q.
Variable fuzz_ratio : string -> string -> Z.
Variable alg : string.
Variable frame : list PRow.
Hypothesis name_unique : NoDup (map pname frame).
Hypothesis index_unique : NoDup (map index frame).
Hypothesis positioned : well_positioned frame.

Abbreviation mstep4 := (merge_step SequenceMatcher_ratio fuzz_ratio alg).
Abbreviation cstep4 := (cluster_step SequenceMatcher_ratio fuzz_ratio alg frame).

Lemma merge_step_catches anchor acc row_2 :
  Qle_bool (8 # 10)
    (score SequenceMatcher_ratio fuzz_ratio alg (pname anchor) (pname row_2)) = true ->
  index row_2 ∈ a_removed (mstep4 anchor acc row_2).
Proof.
  intros Hs. unfold merge_step. destruct (decide _); [done|].
  unfold pname in Hs. rewrite Hs. simpl. apply elem_of_app. right.
  by apply list_elem_of_singleton.
Qed.

Lemma merge_loop_catches anchor l : forall acc r,
  r ∈ l ->
  Qle_bool (8 # 10)
    (score SequenceMatcher_ratio fuzz_ratio alg (pname anchor) (pname r)) = true ->
  index r ∈ a_removed (foldl (mstep4 anchor) acc l).
Proof.
  induction l as [|x l IH]; intros acc r Hr Hs; [by apply elem_of_nil in Hr|].
  simpl. apply elem_of_cons in Hr as [->|Hr].
  - apply merge_loop_removed. by apply merge_step_catches.
  - by apply IH.
Qed.

Lemma cluster_step_catches st anchor r :
  index anchor ∉ removed st ->
  r ∈ frame ->
  in_window (position anchor) (position r) = true ->
  Qle_bool (8 # 10)
    (score SequenceMatcher_ratio fuzz_ratio alg (pname anchor) (pname r)) = true ->
  index r ∈ removed (cstep4 st anchor).
Proof.
  intros Hfresh Hr Hw Hs. unfold cluster_step. rewrite decide_False by done. simpl.
  apply merge_loop_catches; [|done].
  unfold test_set. by apply list_elem_of_filter.
Qed.

Lemma snoc_split {A} (l cs1 cs2 : list A) (x c : A) :
  l ++ [x] = cs1 ++ c :: cs2 ->
  (cs2 = [] /\ cs1 = l /\ c = x)
  \/ exists cs2', cs2 = cs2' ++ [x] /\ l = cs1 ++ c :: cs2'.
Proof.
  destruct cs2 as [|y cs2 _] using rev_ind; intros H.
  - left. apply app_inj_tail in H as [-> ->]. done.
  - right. exists cs2.
    change (cs1 ++ c :: cs2 ++ [y]) with (cs1 ++ (c :: cs2) ++ [y]) in H.
    rewrite app_assoc in H. apply app_inj_tail in H as [-> ->]. done.
Qed.

Lemma cluster_step_complete st used anchor :
  anchor ∈ frame ->
  builder_inv frame st used ->
  greedy_complete SequenceMatcher_ratio fuzz_ratio alg frame (clusters st) ->
  greedy_complete SequenceMatcher_ratio fuzz_ratio alg frame (clusters (cstep4 st anchor)).
Proof.
  intros Hin Hinv Hst.
  destruct (cluster_step_inv SequenceMatcher_ratio fuzz_ratio alg frame name_unique
              st used anchor Hin Hinv) as (used' & Hrem' & Hused' & _ & Hmem' & _).
  destruct (cluster_step_clusters SequenceMatcher_ratio fuzz_ratio alg frame st anchor)
    as [[_ ->]|(Hfresh & c0 & Hc0 & Hname)]; [done|].
  intros cs1 c cs2 r Hsplit Hr [Hs Hw].
  rewrite Hc0 in Hsplit. apply snoc_split in Hsplit as [(-> & -> & ->)|(cs2' & -> & Hl)].
  - rewrite <- Hc0, Hmem'.
    assert (index r ∈ removed (cstep4 st anchor)) as Hrm.
    { unfold well_positioned in positioned.
      apply cluster_step_catches; try done.
      - rewrite (proj1 (Forall_forall _ _) positioned anchor Hin).
        rewrite (proj1 (Forall_forall _ _) positioned r Hr).
        by rewrite <- Hname.
      - by rewrite <- Hname. }
    rewrite Hrem' in Hrm. apply list_elem_of_fmap in Hrm as (r' & Heq & Hr').
    assert (r' ∈ frame) as Hr'f by (by eapply Forall_forall in Hused').
    rewrite (NoDup_key_inj index frame r r' index_unique Hr Hr'f Heq).
    by apply (list_elem_of_fmap_2 pname).
  - by apply (Hst cs1 c cs2' r).
Qed.

Lemma cluster_loop_complete l : forall st used,
  Forall (fun r => r ∈ frame) l ->
  builder_inv frame st used ->
  greedy_complete SequenceMatcher_ratio fuzz_ratio alg frame (clusters st) ->
  greedy_complete SequenceMatcher_ratio fuzz_ratio alg frame (clusters (foldl cstep4 st l)).
Proof.
  induction l as [|r l IH]; intros st used Hl Hinv Hst; simpl; [done|].
  apply Forall_cons in Hl as [Hr Hl].
  destruct (cluster_step_inv SequenceMatcher_ratio fuzz_ratio alg frame name_unique
              st used r Hr Hinv) as [used' Hinv'].
  apply (IH _ used'); [done..|]. by apply (cluster_step_complete st used).
Qed.

End Greedy.

(** X19. The loop is greedy and complete for each anchor: a surviving
    row whose name scores at least 0.8 against the anchor name of a
    cluster and whose position lies in that anchor's window stands in
    that cluster or in an earlier one, never in a later one. *)
Theorem passing_rows_never_left (smr : string -> string -> Q)
    (fr : string -> string -> Z) (cfg : Config) (loaded_data : list Row) (res : Result) :
  run smr fr cfg loaded_data = Returns res ->
  forall cs1 c cs2 p,
    output_df res = cs1 ++ c :: cs2 ->
    p ∈ data res ->
    Qle_bool (8 # 10) (score smr fr (algorithm cfg) (c_party_name c) (pname p)) = true ->
    in_window (word_position (c_party_name c)) (word_position (pname p)) = true ->
    pname p ∈ flat_map members (cs1 ++ [c]).
Proof.
  intros Hrun cs1 c cs2 p Hsplit Hp Hs Hw.
  destruct (run_frame _ _ _ _ _ Hrun) as (Hidx & Hnm & Hout & _).
  destruct (run_unfold _ _ _ _ _ Hrun) as (_ & _ & Hdata).
  assert (well_positioned (data res)) as Hwell
    by (rewrite Hdata; apply add_position_well).
  assert (builder_inv (data res) (mkBuilder [] [] 0) []) as H0.
  { unfold builder_inv; simpl. repeat split; try done; constructor. }
  assert (greedy_complete smr fr (algorithm cfg) (data res) []) as Hnil.
  { intros l1 c1 l2 r Hl. by destruct l1. }
  pose proof (cluster_loop_complete smr fr (algorithm cfg) (data res) Hnm Hidx Hwell
                (data res) (mkBuilder [] [] 0) [] ltac:(by apply Forall_forall) H0 Hnil)
    as Hg.
  fold (build smr fr (algorithm cfg) (data res)) in Hg. rewrite <- Hout in Hg.
  by apply (Hg cs1 c cs2 p).
Qed.

Lemma passing_rows_never_left_witness :
  "abc apts" ∈ flat_map members
                 ([] ++ [mkCluster "abc apt" ["abc apts"] ["plaintiff"; "defendant"]
                           ["1 Main St"] ["eviction"] [2020; 2019] 12]).
Proof.
  apply (passing_rows_never_left sample_ratio fuzz_ratio_indel sample_config sample_table
           (mkResult
              [mkPRow 0 (mkRow "abc apt" "plaintiff" "1 Main St" "eviction" 2020 8) 434;
               mkPRow 1 (mkRow "abc apts" "defendant" "1 Main St" "eviction" 2019 4) 518;
               mkPRow 3 (mkRow "smith john" "defendant" "3 Oak Ave" "eviction" 2018 1) 702]
              9997 1
              [mkCluster "abc apt" ["abc apts"] ["plaintiff"; "defendant"]
                 ["1 Main St"] ["eviction"] [2020; 2019] 12;
               mkCluster "smith john" [] ["defendant"] ["3 Oak Ave"] ["eviction"] [2018] 1])
           ltac:(vm_compute; reflexivity)
           [] _ [mkCluster "smith john" [] ["defendant"] ["3 Oak Ave"] ["eviction"] [2018] 1]
           (mkPRow 1 (mkRow "abc apts" "defendant" "1 Main St" "eviction" 2019 4) 518)).
  - reflexivity.
  - apply elem_of_cons. right. apply elem_of_cons. by left.
  - vm_compute. reflexivity.
  - vm_compute. reflexivity.
Defined.
